(** * UploadWizard: configuration merging and licence wikitext

    A shallow embedding of

    - [includes/Config.php]: [Config::isAssoc], [Config::arrayReplaceSanely],
      [Config::getCampaignConfig], [Config::getConfig], [Config::setUrlSetting];
    - [resources/uw.LicenseGroup.js]: [getValue], [getTemplates],
      [getLicenceWikiText], [getWikiText].

    PHP arrays are ordered maps whose keys are integers or strings; they are
    modelled as association lists in iteration order.  JavaScript strings are
    sequences of UTF-16 code units; JavaScript objects used as maps are
    association lists in insertion order, enumerated the way [Object.keys]
    enumerates them. *)

From Stdlib Require Import List ZArith NArith Bool String Ascii Lia Permutation.
Import ListNotations.

(** [map] with a callback that may raise: the first failure is the result. *)
Fixpoint mapM {A B : Type} (f : A -> option B) (l : list A) : option (list B) :=
  match l with
  | [] => Some []
  | x :: t =>
      match f x with
      | Some y =>
          match mapM f t with
          | Some ys => Some (y :: ys)
          | None => None
          end
      | None => None
      end
  end.

(** ** PHP values *)

Module Php.

Local Open Scope Z_scope.

(** An array key after PHP's key normalisation: a string that is a canonical
    decimal integer has already become [KInt]. *)
Inductive key : Type :=
| KInt (i : Z)
| KStr (s : string).

(** Values whose [gettype] is not ["array"]. *)
Inductive scalar : Type :=
| SNull
| SBool (b : bool)
| SInt (i : Z)
| SStr (s : string).

#[local] Unset Elimination Schemes.
Inductive value : Type :=
| VScalar (s : scalar)
| VArr (a : list (key * value)).
#[local] Set Elimination Schemes.

Definition arr : Type := list (key * value).

Definition key_eqb (k1 k2 : key) : bool :=
  match k1, k2 with
  | KInt i, KInt j => Z.eqb i j
  | KStr s, KStr t => String.eqb s t
  | _, _ => false
  end.

(** [is_string] on a key *)
Definition is_string (k : key) : bool :=
  match k with
  | KStr _ => true
  | KInt _ => false
  end.

Definition array_keys (a : arr) : list key := map fst a.

(** [$a[$k]] / [array_key_exists( $k, $a )] *)
Fixpoint alookup (k : key) (a : arr) : option value :=
  match a with
  | [] => None
  | (k', v) :: t => if key_eqb k k' then Some v else alookup k t
  end.

Definition array_key_exists (k : key) (a : arr) : bool :=
  match alookup k a with
  | Some _ => true
  | None => false
  end.

(** [$a[$k] = $v]: overwrite in place when the key exists, append otherwise. *)
Fixpoint aset (k : key) (v : value) (a : arr) : arr :=
  match a with
  | [] => [(k, v)]
  | (k', v') :: t =>
      if key_eqb k k' then (k', v) :: t else (k', v') :: aset k v t
  end.

(** [array_diff_key( $a, $b )]: the entries of [$a] whose key is not a key of
    [$b], with their keys and in their order. *)
Definition array_diff_key (a b : arr) : arr :=
  filter (fun e => negb (array_key_exists (fst e) b)) a.

(** One argument of [array_merge] poured into the result built so far:
    a string key is assigned, a value under an integer key is appended
    under the next free index [n]. *)
Fixpoint merge_into (acc : arr) (n : Z) (src : arr) : arr * Z :=
  match src with
  | [] => (acc, n)
  | (KStr s, v) :: t => merge_into (aset (KStr s) v acc) n t
  | (KInt _, v) :: t => merge_into (acc ++ [(KInt n, v)]) (n + 1) t
  end.

(** [array_merge( $a, $b )] *)
Definition array_merge (a b : arr) : arr :=
  let '(acc, n) := merge_into [] 0 a in
  fst (merge_into acc n b).

(** ** Config.php *)

(** [Config::isAssoc] *)
Definition isAssoc (array : arr) : bool :=
  negb (Nat.eqb (List.length (filter is_string (array_keys array))) 0).

Section ReplaceLoop.

(** the recursive call [self::arrayReplaceSanely( $array[$key], $array1[$key] )] *)
Variable self : value -> value -> option value.
Variable array1 : arr.

(** The [foreach ( $array as $key => $value )] loop, threading [$newArray];
    [None] is the [TypeError] of a recursive call. *)
Fixpoint replaceLoop (array : arr) (newArray : arr) : option arr :=
  match array with
  | [] => Some newArray
  | (key, value) :: rest =>
      match alookup key array1 with
      | Some value1 =>
          match value with
          | VArr inner =>
              if isAssoc inner then
                match self value value1 with
                | Some merged => replaceLoop rest (aset key merged newArray)
                | None => None
                end
              else replaceLoop rest (aset key value1 newArray)
          | VScalar _ => replaceLoop rest (aset key value1 newArray)
          end
      | None => replaceLoop rest (aset key value newArray)
      end
  end.

End ReplaceLoop.

(** [Config::arrayReplaceSanely].  Both arguments have to be arrays:
    [array_key_exists] and [array_diff_key] raise a [TypeError] on anything
    else, which is the result [None]. *)
Fixpoint arrayReplaceSanely (array array1 : value) {struct array} : option value :=
  match array, array1 with
  | VArr a, VArr a1 =>
      match replaceLoop arrayReplaceSanely a1 a [] with
      | Some newArray => Some (VArr (array_merge newArray (array_diff_key a1 a)))
      | None => None
      end
  | _, _ => None
  end.

(** [array_replace_recursive]: every entry of the replacement is assigned
    into the destination, except that where both sides hold an array the
    replacement is carried out inside the destination's array. *)
Fixpoint array_replace_recursive_into (src : value) (dest : arr) {struct src} : arr :=
  match src with
  | VArr s =>
      fold_left
        (fun d e =>
           match snd e, alookup (fst e) d with
           | VArr _, Some (VArr de) =>
               aset (fst e) (VArr (array_replace_recursive_into (snd e) de)) d
           | _, _ => aset (fst e) (snd e) d
           end)
        s dest
  | VScalar _ => dest
  end.

Definition array_replace_recursive (array replacements : arr) : arr :=
  array_replace_recursive_into (VArr replacements) array.

(** What a PHP call gives back: a value, or an uncaught [TypeError]. *)
Inductive outcome : Type :=
| Returned (v : value)
| TypeError.

(** The process-wide state [Config] reads and writes: the global
    [$wgUploadWizardConfig], the function-static [$mergedConfig] of
    [getConfig] and the class-static [$urlConfig]. *)
Record State : Type := mkState {
  wgUploadWizardConfig : value;
  mergedConfig : bool;
  urlConfig : arr
}.

(** The part of a [Campaign] object that [Config] uses. *)
Record Campaign : Type := mkCampaign {
  getIsEnabled : bool;
  getParsedConfig : value
}.

(** [Config::setUrlSetting] *)
Definition setUrlSetting (name : key) (v : value) (st : State) : State :=
  mkState (wgUploadWizardConfig st) (mergedConfig st) (aset name v (urlConfig st)).

Section Config.

(** [Config::getDefaultConfig()]: the contents of UploadWizard.config.php *)
Variable getDefaultConfig : value.
(** [Campaign::newFromName]: [None] is its [false] *)
Variable newFromName : string -> option Campaign.

(** [Config::getCampaignConfig] *)
Definition getCampaignConfig (campaignName : option string) : value :=
  match campaignName with
  | Some name =>
      match newFromName name with
      | Some campaign =>
          if getIsEnabled campaign then getParsedConfig campaign else VArr []
      | None => VArr []
      end
  | None => VArr []
  end.

(** [if ( !$mergedConfig ) { ... }] *)
Definition mergeDefaults (st : State) : option State :=
  if mergedConfig st then Some st
  else
    match arrayReplaceSanely getDefaultConfig (wgUploadWizardConfig st) with
    | Some merged => Some (mkState merged true (urlConfig st))
    | None => None
    end.

(** [if ( $campaignName !== null ) { ... }] *)
Definition mergeCampaign (campaignName : option string) (st : State) : option State :=
  match campaignName with
  | Some _ =>
      match arrayReplaceSanely (wgUploadWizardConfig st)
              (getCampaignConfig campaignName) with
      | Some merged => Some (mkState merged (mergedConfig st) (urlConfig st))
      | None => None
      end
  | None => Some st
  end.

(** [Config::getConfig]: the outcome of the call and the state it leaves.
    An assignment whose right-hand side raises does not take place. *)
Definition getConfig (campaignName : option string) (st : State) : outcome * State :=
  match mergeDefaults st with
  | None => (TypeError, st)
  | Some st1 =>
      match mergeCampaign campaignName st1 with
      | None => (TypeError, st1)
      | Some st2 =>
          match wgUploadWizardConfig st2 with
          | VArr config =>
              (Returned (VArr (array_replace_recursive config (urlConfig st2))), st2)
          | VScalar _ => (TypeError, st2)
          end
      end
  end.

(** The campaign is not found or not enabled. *)
Definition unavailable (name : string) : bool :=
  match newFromName name with
  | Some campaign => negb (getIsEnabled campaign)
  | None => true
  end.

(** The states of one process: [$mergedConfig] starts out [false], and the
    state changes through [getConfig] and [setUrlSetting]. *)
Inductive reachable : State -> Prop :=
| reach_start (site : value) (url : arr) : reachable (mkState site false url)
| reach_getConfig (campaignName : option string) (st : State) :
    reachable st -> reachable (snd (getConfig campaignName st))
| reach_setUrlSetting (name : key) (v : value) (st : State) :
    reachable st -> reachable (setUrlSetting name v st).

End Config.

(** ** Notions the statements about [arrayReplaceSanely] use *)

(** What one iteration of the loop of [arrayReplaceSanely] stores under
    [$key]. *)
Definition entryValue (self : value -> value -> option value) (array1 : arr)
    (k : key) (v : value) : option value :=
  match alookup k array1 with
  | Some value1 =>
      match v with
      | VArr inner => if isAssoc inner then self v value1 else Some value1
      | VScalar _ => Some value1
      end
  | None => Some v
  end.

Definition entry (self : value -> value -> option value) (array1 : arr)
    (e : key * value) : option (key * value) :=
  match entryValue self array1 (fst e) (snd e) with
  | Some v => Some (fst e, v)
  | None => None
  end.

(** The next free index after [array_merge] has taken in [a], starting
    from [n]. *)
Fixpoint next_index (n : Z) (a : arr) : Z :=
  match a with
  | [] => n
  | (KStr _, _) :: t => next_index n t
  | (KInt _, _) :: t => next_index (n + 1) t
  end.

(** What [array_merge] does to the keys of a list of entries with distinct
    string keys: string keys stay, integer keys are replaced by
    [n], [n+1], ... in order of appearance. *)
Fixpoint renumber (n : Z) (a : arr) : arr :=
  match a with
  | [] => []
  | (KStr s, v) :: t => (KStr s, v) :: renumber n t
  | (KInt _, v) :: t => (KInt n, v) :: renumber (n + 1) t
  end.

(** The key under which [array_merge] stores the entry that [a] holds under
    [k], when it numbers integer keys from [n]: a string key stays, an
    integer key becomes [n] plus the number of integer keys before it. *)
Fixpoint merged_key (n : Z) (a : arr) (k : key) : key :=
  match a with
  | [] => k
  | (k', _) :: t =>
      if key_eqb k k' then
        match k with
        | KInt _ => KInt n
        | KStr _ => k
        end
      else merged_key (match k' with KInt _ => n + 1 | KStr _ => n end) t k
  end.

(** The integer keys are [n], [n+1], ... in order of appearance. *)
Fixpoint sequential (n : Z) (ks : list key) : bool :=
  match ks with
  | [] => true
  | KStr _ :: t => sequential n t
  | KInt i :: t => Z.eqb i n && sequential (n + 1) t
  end.

Definition mem_key (k : key) (ks : list key) : bool := existsb (key_eqb k) ks.

Fixpoint nodup_keys (ks : list key) : bool :=
  match ks with
  | [] => true
  | k :: t => negb (mem_key k t) && nodup_keys t
  end.

(** The keys of the array are distinct, and its integer keys are
    0, 1, 2, ... in order of appearance. *)
Definition canonical (a : arr) : Prop :=
  NoDup (array_keys a) /\ sequential 0 (array_keys a) = true.

(** A PHP array holds a key once, at every depth. *)
Fixpoint wf (v : value) : bool :=
  match v with
  | VScalar _ => true
  | VArr a => nodup_keys (array_keys a) && forallb (fun e => wf (snd e)) a
  end.

(** [arrayReplaceSanely( v, v1 )] meets no [TypeError]: both are arrays, and
    so are the two sides of every recursive call. *)
Fixpoint compatible (v v1 : value) {struct v} : bool :=
  match v, v1 with
  | VArr a, VArr a1 =>
      forallb
        (fun e =>
           match snd e, alookup (fst e) a1 with
           | VArr inner, Some v1' =>
               if isAssoc inner then compatible (snd e) v1' else true
           | _, _ => true
           end)
        a
  | _, _ => false
  end.

(** The integer keys of the array, and of every associative array the merge
    recurses into, are 0, 1, 2, ... in order of appearance. *)
Fixpoint stable (v : value) : bool :=
  match v with
  | VScalar _ => true
  | VArr a =>
      sequential 0 (array_keys a)
      && forallb
           (fun e =>
              match snd e with
              | VArr inner => if isAssoc inner then stable (snd e) else true
              | VScalar _ => true
              end)
           a
  end.

(** A value [arrayReplaceSanely] replaces instead of recursing into:
    a scalar, or an array without a string key. *)
Definition replaced (v : value) : bool :=
  match v with
  | VScalar _ => true
  | VArr inner => negb (isAssoc inner)
  end.

Definition is_assoc_array (v : value) : bool :=
  match v with
  | VScalar _ => false
  | VArr inner => isAssoc inner
  end.

(** ** Sample configurations *)

Definition sample_defaults : arr :=
  [(KStr "debug", VScalar (SBool false));
   (KStr "tutorial",
    VArr [(KStr "skip", VScalar (SBool false)); (KStr "width", VScalar (SInt 720))]);
   (KStr "fileExtensions",
    VArr [(KInt 0, VScalar (SStr "jpg")); (KInt 1, VScalar (SStr "png"))])].

Definition sample_site : arr :=
  [(KStr "tutorial", VArr [(KStr "skip", VScalar (SBool true))]);
   (KStr "fileExtensions", VArr [(KInt 0, VScalar (SStr "ogg"))]);
   (KStr "altUploadForm", VScalar (SStr "Special:Upload"))].

(** One enabled campaign, ["wlm"], and one disabled, ["old"]. *)
Definition sample_campaigns (name : string) : option Campaign :=
  if String.eqb name "wlm" then
    Some (mkCampaign true (VArr [(KStr "debug", VScalar (SBool true))]))
  else if String.eqb name "old" then
    Some (mkCampaign false (VArr [(KStr "debug", VScalar (SBool true))]))
  else None.

(** ** The readers of the configuration *)

(** [$v[ name ]] read under a string key that is not numeric, as the literal
    keys of [getThirdPartyLicenses] are: an array gives its element, or null
    where it has none; null, a boolean or an integer gives null; a string
    raises a [TypeError], the result [None]. *)
Definition offsetGet (v : value) (name : string) : option value :=
  match v with
  | VArr a =>
      match alookup (KStr name) a with
      | Some x => Some x
      | None => Some (VScalar SNull)
      end
  | VScalar (SStr _) => None
  | VScalar _ => Some (VScalar SNull)
  end.

(** The loop of [getThirdPartyLicenses], threading [$licenses]; [None] is a
    [TypeError], of [$group['licenses']] or of [array_merge] given something
    that is not an array. *)
Fixpoint collectLicenses (groups : arr) (licenses : arr) : option arr :=
  match groups with
  | [] => Some licenses
  | (_, group) :: rest =>
      match offsetGet group "licenses" with
      | Some (VArr groupLicenses) =>
          collectLicenses rest (array_merge licenses groupLicenses)
      | _ => None
      end
  end.

Section Settings.

Variable getDefaultConfig : value.
Variable newFromName : string -> option Campaign.

(** [Config::getSetting]: [$config[$settingName]], null for a setting that
    is not there. *)
Definition getSetting (settingName : key) (campaignName : option string)
    (st : State) : outcome * State :=
  match getConfig getDefaultConfig newFromName campaignName st with
  | (Returned (VArr config), st') =>
      (Returned
         (match alookup settingName config with
          | Some v => v
          | None => VScalar SNull
          end),
       st')
  | (_, st') => (TypeError, st')
  end.

(** [Config::getThirdPartyLicenses]; [foreach] over something that is not
    an array does not iterate. *)
Definition getThirdPartyLicenses (st : State) : outcome * State :=
  match getSetting (KStr "licensing") None st with
  | (Returned licensing, st') =>
      match offsetGet licensing "thirdParty" with
      | Some thirdParty =>
          match offsetGet thirdParty "licenseGroups" with
          | Some (VArr groups) =>
              match collectLicenses groups [] with
              | Some licenses => (Returned (VArr licenses), st')
              | None => (TypeError, st')
              end
          | Some (VScalar _) => (Returned (VArr []), st')
          | None => (TypeError, st')
          end
      | None => (TypeError, st')
      end
  | (TypeError, st') => (TypeError, st')
  end.

End Settings.

(** The array has integer keys only. *)
Definition integerKeys (a : arr) : bool :=
  forallb (fun k => negb (is_string k)) (array_keys a).

(** The values of [$group['licenses']] where that is an array. *)
Definition licensesOf (group : value) : list value :=
  match offsetGet group "licenses" with
  | Some (VArr groupLicenses) => map snd groupLicenses
  | _ => []
  end.

(** Every group holds under ['licenses'] an array with integer keys only. *)
Definition licenseLists (groups : arr) : bool :=
  forallb
    (fun g =>
       match offsetGet (snd g) "licenses" with
       | Some (VArr groupLicenses) => integerKeys groupLicenses
       | _ => false
       end)
    groups.

(** Two groups of third-party licences, and a site configuration that
    lists them. *)
Definition sample_groups : arr :=
  [(KInt 0,
    VArr [(KStr "head", VScalar (SStr "cc"));
          (KStr "licenses",
           VArr [(KInt 0, VScalar (SStr "cc-by-sa-4.0"));
                 (KInt 1, VScalar (SStr "cc-zero"))])]);
   (KInt 1,
    VArr [(KStr "head", VScalar (SStr "pd"));
          (KStr "licenses", VArr [(KInt 0, VScalar (SStr "pd-old"))])])].

Definition sample_licensing : arr :=
  [(KStr "licensing",
    VArr [(KStr "thirdParty",
           VArr [(KStr "type", VScalar (SStr "radio"));
                 (KStr "licenseGroups", VArr sample_groups)])])].

End Php.

(** ** JavaScript strings and objects *)

Module Js.

Local Open Scope N_scope.

(** A string is its sequence of UTF-16 code units. *)
Definition jsstring : Type := list N.

Definition str (s : string) : jsstring :=
  map N_of_ascii (list_ascii_of_string s).

(** White space and line terminators, as [String.prototype.trim] strips them. *)
Definition isWhiteSpace (c : N) : bool :=
  existsb (N.eqb c)
    [9; 10; 11; 12; 13; 32; 160; 5760; 8232; 8233; 8239; 8287; 12288; 65279]
  || ((8192 <=? c) && (c <=? 8202)).

Fixpoint trimStart (s : jsstring) : jsstring :=
  match s with
  | [] => []
  | c :: t => if isWhiteSpace c then trimStart t else s
  end.

Definition trimEnd (s : jsstring) : jsstring := rev (trimStart (rev s)).

(** [s.trim()] *)
Definition trim (s : jsstring) : jsstring := trimEnd (trimStart s).

(** [a.join( sep )] on an array of strings *)
Fixpoint join (sep : jsstring) (a : list jsstring) : jsstring :=
  match a with
  | [] => []
  | [x] => x
  | x :: t => x ++ sep ++ join sep t
  end.

Fixpoint jsstring_eqb (s t : jsstring) : bool :=
  match s, t with
  | [], [] => true
  | c :: s', d :: t' => N.eqb c d && jsstring_eqb s' t'
  | _, _ => false
  end.

(** An object used as a map: its own properties in insertion order. *)
Definition object (V : Type) : Type := list (jsstring * V).

(** [o[ name ]]; [None] is [undefined] *)
Fixpoint obj_get {V : Type} (name : jsstring) (o : object V) : option V :=
  match o with
  | [] => None
  | (n, v) :: t => if jsstring_eqb name n then Some v else obj_get name t
  end.

(** [o[ name ] = v]: an existing property keeps its place. *)
Fixpoint obj_set {V : Type} (name : jsstring) (v : V) (o : object V) : object V :=
  match o with
  | [] => [(name, v)]
  | (n, v') :: t =>
      if jsstring_eqb name n then (n, v) :: t else (n, v') :: obj_set name v t
  end.

Fixpoint parseDigits (acc : N) (s : jsstring) : option N :=
  match s with
  | [] => Some acc
  | c :: t =>
      if (48 <=? c) && (c <=? 57) then parseDigits (10 * acc + (c - 48)) t
      else None
  end.

(** The array index a property name denotes, if it is one: a canonical
    decimal numeral below 2^32 - 1. *)
Definition arrayIndex (name : jsstring) : option N :=
  match name with
  | [] => None
  | c :: t =>
      if (c =? 48) && negb (Nat.eqb (List.length t) 0) then None
      else
        match parseDigits 0 name with
        | Some i => if i <? 4294967295 then Some i else None
        | None => None
        end
  end.

Definition isArrayIndex (name : jsstring) : bool :=
  match arrayIndex name with
  | Some _ => true
  | None => false
  end.

Fixpoint insertIndex (e : N * jsstring) (l : list (N * jsstring)) : list (N * jsstring) :=
  match l with
  | [] => [e]
  | h :: t => if fst e <=? fst h then e :: l else h :: insertIndex e t
  end.

Definition indexKeys (names : list jsstring) : list (N * jsstring) :=
  fold_right
    (fun name acc =>
       match arrayIndex name with
       | Some i => insertIndex (i, name) acc
       | None => acc
       end)
    [] names.

(** [Object.keys( o )]: array indices in ascending order, then the other
    names in insertion order. *)
Definition Object_keys {V : Type} (o : object V) : list jsstring :=
  map snd (indexKeys (map fst o))
  ++ filter (fun name => negb (isArrayIndex name)) (map fst o).

(** ** uw.LicenseGroup.js *)

(** [config.licenses], [config.template], [config.prependTemplates];
    [None] is [undefined] *)
Record Config : Type := mkConfig {
  licenses : list jsstring;
  template : option jsstring;
  prependTemplates : option (list jsstring)
}.

(** An entry of [mw.UploadWizard.config.licenses]; [None] is [undefined] *)
Record LicenseProps : Type := mkProps {
  templates : option (list jsstring)
}.

Inductive GroupType : Type := radio | checkbox.

(** A value of the map [getValue] returns: [true], or a string. *)
Inductive selected_value : Type :=
| VTrue
| VString (s : jsstring).

(** The state of a [uw.LicenseGroup] that [getValue] and [getWikiText] read:
    [items] are the options of [this.group], each with its data and whether
    it is selected; [customInputs] maps a licence name to the current value
    of its text input. *)
Record LicenseGroup : Type := mkGroup {
  config : Config;
  type : GroupType;
  items : list (jsstring * bool);
  customInputs : object jsstring
}.

(** [this.group.findSelectedItems()] of a checkbox group (OOUI): the data of
    the selected options, in the order of the options *)
Definition findSelectedItems (w : LicenseGroup) : list jsstring :=
  map fst (filter snd (items w)).

(** [this.group.findSelectedItem()] of a radio group (OOUI): the data of the
    selected option; [None] is [null] *)
Definition findSelectedItem (w : LicenseGroup) : option jsstring :=
  hd_error (findSelectedItems w).

(** [!this.customInputs[ name ] || this.customInputs[ name ].getValue()] *)
Definition customValue (w : LicenseGroup) (name : jsstring) : selected_value :=
  match obj_get name (customInputs w) with
  | None => VTrue
  | Some text => VString text
  end.

(** [uw.LicenseGroup.prototype.getValue] *)
Definition getValue (w : LicenseGroup) : object selected_value :=
  match type w with
  | radio =>
      match findSelectedItem w with
      | Some name => obj_set name (customValue w name) []
      | None => []
      end
  | checkbox =>
      fold_left
        (fun result name => obj_set name (customValue w name) result)
        (findSelectedItems w) []
  end.

Section Registry.

(** [mw.UploadWizard.config.licenses[ name ]] *)
Variable registry : jsstring -> option LicenseProps.

(** [getTemplates]; [None] is the [TypeError] of reading [templates] of
    [undefined]. *)
Definition getTemplates (name : jsstring) : option (list jsstring) :=
  match registry name with
  | None => None
  | Some props =>
      match templates props with
      | None => Some [name]
      | Some ts => Some ts
      end
  end.

(** [getLicenceWikiText] *)
Definition getLicenceWikiText (cfg : Config) (name : jsstring) : option jsstring :=
  match getTemplates name with
  | None => None
  | Some templates0 =>
      let templates1 :=
        match prependTemplates cfg with
        | Some pre => fold_left (fun ts t => t :: ts) pre templates0
        | None => templates0
        end in
      let templates2 :=
        match template cfg with
        | Some t => [join (str "|") (t :: templates1)]
        | None => templates1
        end in
      Some (join [] (map (fun t => str "{{" ++ t ++ str "}}") templates2))
  end.

(** The callback of [Object.keys( values ).map( ... )] in [getWikiText] *)
Definition licenceBlock (cfg : Config) (values : object selected_value)
    (name : jsstring) : option jsstring :=
  match getLicenceWikiText cfg name with
  | None => None
  | Some wikiText =>
      match obj_get name values with
      | Some (VString value) => Some (wikiText ++ [10] ++ trim value)
      | _ => Some wikiText
      end
  end.

(** The body of [getWikiText] once [values] is known *)
Definition wikiTextOf (cfg : Config) (values : object selected_value) : option jsstring :=
  match mapM (licenceBlock cfg values) (Object_keys values) with
  | Some wikiTexts => Some (trim (join [] wikiTexts))
  | None => None
  end.

(** [uw.LicenseGroup.prototype.getWikiText] *)
Definition getWikiText (w : LicenseGroup) : option jsstring :=
  wikiTextOf (config w) (getValue w).

(** The rendering the specification describes: the selection's entries in
    insertion order. *)
Definition renderSelection (cfg : Config) (selection : object selected_value) : option jsstring :=
  match mapM (licenceBlock cfg selection) (map fst selection) with
  | Some blocks => Some (trim (join [] blocks))
  | None => None
  end.

(** The options [createRadioGroup] and [createCheckboxGroup] build: one per
    name of [config.licenses] that the registry knows, none selected yet. *)
Definition createOptions (cfg : Config) : list (jsstring * bool) :=
  map (fun licenseName => (licenseName, false))
    (filter
       (fun licenseName =>
          match registry licenseName with Some _ => true | None => false end)
       (licenses cfg)).

(** Every option of the group is a licence of the registry. *)
Definition optionsKnown (w : LicenseGroup) : bool :=
  forallb
    (fun item => match registry (fst item) with Some _ => true | None => false end)
    (items w).

End Registry.

(** The string neither starts nor ends with white space. *)
Definition startsClean (s : jsstring) : bool :=
  match s with
  | [] => true
  | c :: _ => negb (isWhiteSpace c)
  end.

Definition trimmed (s : jsstring) : bool := startsClean s && startsClean (rev s).

(** The templates in the order [getLicenceWikiText] leaves them after the
    [unshift] calls for [prependTemplates]. *)
Definition prepended (cfg : Config) (own : list jsstring) : list jsstring :=
  match prependTemplates cfg with
  | Some pre => rev pre ++ own
  | None => own
  end.

(** ** A sample registry *)

Definition sample_licenses (name : jsstring) : option LicenseProps :=
  if jsstring_eqb name (str "cc-by-sa") then Some (mkProps (Some [str "cc-by-sa-4.0"]))
  else if existsb (jsstring_eqb name)
            [str "fooLicense"; str "custom-license"; str "cc0"; str "1"; str "2"]
  then Some (mkProps None)
  else None.

(** ** [setValue] *)

(** A value [setValue] finds in [values]: [true] or a string, as [getValue]
    gives them, or anything else. *)
Inductive js_value : Type :=
| JSelected (v : selected_value)
| JOther.

(** [this.group.selectItemByData( data )] of a radio group (OOUI) for data
    that some option has: the first option with the data is selected, every
    other option is not. *)
Fixpoint selectFirst (data : jsstring) (options : list (jsstring * bool))
    : list (jsstring * bool) :=
  match options with
  | [] => []
  | (name, selected) :: rest =>
      if jsstring_eqb data name
      then (name, true) :: map (fun item => (fst item, false)) rest
      else (name, false) :: selectFirst data rest
  end.

(** [this.group.selectItemByData( data )]; for [undefined], [None] here, and
    for data no option has, no option is selected. *)
Definition selectItemByData (data : option jsstring) (options : list (jsstring * bool))
    : list (jsstring * bool) :=
  match data with
  | Some d => selectFirst d options
  | None => map (fun item => (fst item, false)) options
  end.

(** [this.group.selectItemsByData( datas )] of a checkbox group (OOUI):
    an option is selected exactly when its data is among [datas]. *)
Definition selectItemsByData (datas : list jsstring) (options : list (jsstring * bool))
    : list (jsstring * bool) :=
  map (fun item => (fst item, existsb (jsstring_eqb (fst item)) datas)) options.

(** What a text input holds after [setValue( value )] (OOUI over a
    single-line [input] element): the value without its line breaks. *)
Definition inputText (value : jsstring) : jsstring :=
  filter (fun c => negb ((c =? 10) || (c =? 13))) value.

(** The callback of [Object.keys( values ).forEach( ... )] in [setValue],
    threading [this.customInputs] and [selectArray]. *)
Definition setValueStep (values : object js_value)
    (acc : object jsstring * list jsstring) (name : jsstring)
    : object jsstring * list jsstring :=
  match obj_get name values with
  | Some (JSelected (VString value)) =>
      match obj_get name (fst acc) with
      | Some _ => (obj_set name (inputText value) (fst acc), snd acc ++ [name])
      | None => acc
      end
  | Some (JSelected VTrue) => (fst acc, snd acc ++ [name])
  | _ => acc
  end.

(** [uw.LicenseGroup.prototype.setValue] *)
Definition setValue (values : object js_value) (w : LicenseGroup) : LicenseGroup :=
  let acc := fold_left (setValueStep values) (Object_keys values) (customInputs w, []) in
  mkGroup (config w) (type w)
    (match type w with
     | radio => selectItemByData (hd_error (snd acc)) (items w)
     | checkbox => selectItemsByData (snd acc) (items w)
     end)
    (fst acc).

(** [values[ name ]] makes [setValue] select the option [name]: it is
    [true], or a string and the licence has a text input. *)
Definition selects (values : object js_value) (inputs : object jsstring)
    (name : jsstring) : bool :=
  match obj_get name values with
  | Some (JSelected (VString _)) =>
      match obj_get name inputs with Some _ => true | None => false end
  | Some (JSelected VTrue) => true
  | _ => false
  end.

(** What [getValue] returns, as [setValue] takes it. *)
Definition asValues (selection : object selected_value) : object js_value :=
  map (fun e => (fst e, JSelected (snd e))) selection.

Fixpoint distinct (names : list jsstring) : bool :=
  match names with
  | [] => true
  | name :: rest => negb (existsb (jsstring_eqb name) rest) && distinct rest
  end.

(** The string has no line break, as every value of a single-line text
    input. *)
Definition singleLine (s : jsstring) : bool :=
  forallb (fun c => negb ((c =? 10) || (c =? 13))) s.

(** At most one option is selected, as in every radio group. *)
Definition singleSelection (options : list (jsstring * bool)) : bool :=
  Nat.leb (List.length (filter snd options)) 1.

(** ** The licence URL of [createLabel] *)

(** The loop over [mw.language.getFallbackLanguageChain()] in [createLabel]:
    the first language of the chain that is among [availableLanguages],
    ['en'] when there is none. *)
Fixpoint targetLanguageCode (availableLanguages fallbackChain : list jsstring) : jsstring :=
  match fallbackChain with
  | [] => str "en"
  | code :: rest =>
      if existsb (jsstring_eqb code) availableLanguages then code
      else targetLanguageCode availableLanguages rest
  end.

(** [licenseURL] in [createLabel], from [props.url],
    [props.languageCodePrefix] and [props.availableLanguages]; [None] is
    [undefined]. *)
Definition licenseURL (url languageCodePrefix : option jsstring)
    (availableLanguages : option (list jsstring)) (fallbackChain : list jsstring)
    : jsstring :=
  let licenseURL :=
    match url with
    | None => str "#missing license URL"
    | Some u => u
    end in
  match languageCodePrefix, availableLanguages with
  | Some prefix, Some available =>
      licenseURL ++ prefix ++ targetLanguageCode available fallbackChain
  | _, _ => licenseURL
  end.

End Js.

(** * Properties *)

Import Php.

Section PhpArrays.

Local Open Scope Z_scope.

Lemma key_eqb_eq (k k' : key) : key_eqb k k' = true <-> k = k'.
Proof.
  destruct k as [i | s], k' as [j | t]; simpl; split; intro H;
    try discriminate; try congruence.
  - apply Z.eqb_eq in H. now subst.
  - injection H as ->. apply Z.eqb_refl.
  - apply String.eqb_eq in H. now subst.
  - injection H as ->. apply String.eqb_refl.
Qed.

Lemma key_eqb_refl (k : key) : key_eqb k k = true.
Proof. now apply key_eqb_eq. Qed.

Lemma key_eqb_neq (k k' : key) : key_eqb k k' = false <-> k <> k'.
Proof.
  split.
  - intros H E. apply key_eqb_eq in E. congruence.
  - intro N. destruct (key_eqb k k') eqn:E; [| reflexivity].
    apply key_eqb_eq in E. contradiction.
Qed.

Lemma mem_key_In (k : key) (ks : list key) : mem_key k ks = true <-> In k ks.
Proof.
  unfold mem_key. rewrite existsb_exists. split.
  - intros [x [Hin E]]. apply key_eqb_eq in E. now subst.
  - intro Hin. exists k. split; [assumption | apply key_eqb_refl].
Qed.

Lemma nodup_keys_NoDup (ks : list key) : nodup_keys ks = true <-> NoDup ks.
Proof.
  induction ks as [| k t IH]; simpl.
  - split; [constructor | reflexivity].
  - rewrite andb_true_iff, negb_true_iff, IH. split.
    + intros [Hm Hn]. constructor; [| assumption].
      intro Hin. apply mem_key_In in Hin. congruence.
    + intro Hn. inversion Hn as [| ? ? Hnotin Hn']; subst. split; [| assumption].
      destruct (mem_key k t) eqn:E; [| reflexivity].
      apply mem_key_In in E. contradiction.
Qed.

Lemma alookup_In (k : key) (a : arr) (v : value) :
  alookup k a = Some v -> In k (array_keys a).
Proof.
  induction a as [| [k' v'] t IH]; simpl; [discriminate |].
  destruct (key_eqb k k') eqn:E.
  - apply key_eqb_eq in E. intros _. now left.
  - intro H. right. now apply IH.
Qed.

Lemma alookup_None (k : key) (a : arr) :
  alookup k a = None <-> ~ In k (array_keys a).
Proof.
  induction a as [| [k' v'] t IH]; simpl.
  - tauto.
  - destruct (key_eqb k k') eqn:E.
    + apply key_eqb_eq in E. subst. split; [discriminate | intro H; exfalso; tauto].
    + apply key_eqb_neq in E. rewrite IH. split.
      * intros H [H1 | H1]; [congruence | tauto].
      * tauto.
Qed.

Lemma array_key_exists_In (k : key) (a : arr) :
  array_key_exists k a = true <-> In k (array_keys a).
Proof.
  unfold array_key_exists. destruct (alookup k a) eqn:E.
  - split; [intros _; eapply alookup_In; eassumption | reflexivity].
  - apply alookup_None in E. split; [discriminate | contradiction].
Qed.

Lemma alookup_app (k : key) (a b : arr) :
  alookup k (a ++ b) =
  match alookup k a with Some v => Some v | None => alookup k b end.
Proof.
  induction a as [| [k' v'] t IH]; simpl; [reflexivity |].
  destruct (key_eqb k k'); [reflexivity | apply IH].
Qed.

Lemma aset_fresh (k : key) (v : value) (a : arr) :
  ~ In k (array_keys a) -> aset k v a = a ++ [(k, v)].
Proof.
  induction a as [| [k' v'] t IH]; simpl; intro H; [reflexivity |].
  destruct (key_eqb k k') eqn:E.
  - apply key_eqb_eq in E. subst. exfalso. tauto.
  - f_equal. apply IH. tauto.
Qed.

Lemma array_keys_app (a b : arr) :
  array_keys (a ++ b) = array_keys a ++ array_keys b.
Proof. apply map_app. Qed.

(** *** The loop of [arrayReplaceSanely] *)

Lemma mapM_entry_keys self a1 (a l : arr) :
  mapM (entry self a1) a = Some l -> array_keys l = array_keys a.
Proof.
  revert l. induction a as [| [k v] t IH]; simpl; intros l H.
  - now inversion H.
  - unfold entry in H at 1. simpl in H.
    destruct (entryValue self a1 k v); [| discriminate].
    destruct (mapM (entry self a1) t) eqn:E; [| discriminate].
    inversion H; subst. simpl. f_equal. now apply IH.
Qed.

Lemma replaceLoop_mapM self a1 (a acc : arr) :
  NoDup (array_keys acc ++ array_keys a) ->
  replaceLoop self a1 a acc =
  match mapM (entry self a1) a with
  | Some l => Some (acc ++ l)
  | None => None
  end.
Proof.
  revert acc. induction a as [| [k v] t IH]; intros acc Hnd.
  - simpl. now rewrite app_nil_r.
  - assert (Hk : ~ In k (array_keys acc)).
    { simpl in Hnd. apply NoDup_remove_2 in Hnd. intro Hin. apply Hnd.
      apply in_or_app. now left. }
    assert (Hnd' : forall v', NoDup (array_keys (acc ++ [(k, v')]) ++ array_keys t)).
    { intro v'. rewrite array_keys_app. simpl. rewrite <- app_assoc. exact Hnd. }
    cbn [replaceLoop mapM]. unfold entry at 1, entryValue. cbn [fst snd].
    destruct (alookup k a1) as [value1 |].
    + destruct v as [sc | inner].
      * rewrite (aset_fresh _ _ _ Hk), (IH _ (Hnd' _)).
        destruct (mapM (entry self a1) t); [| reflexivity].
        now rewrite <- app_assoc.
      * destruct (isAssoc inner).
        -- destruct (self (VArr inner) value1) as [merged |]; [| reflexivity].
           rewrite (aset_fresh _ _ _ Hk), (IH _ (Hnd' _)).
           destruct (mapM (entry self a1) t); [| reflexivity].
           now rewrite <- app_assoc.
        -- rewrite (aset_fresh _ _ _ Hk), (IH _ (Hnd' _)).
           destruct (mapM (entry self a1) t); [| reflexivity].
           now rewrite <- app_assoc.
    + rewrite (aset_fresh _ _ _ Hk), (IH _ (Hnd' _)).
      destruct (mapM (entry self a1) t); [| reflexivity].
      now rewrite <- app_assoc.
Qed.

Lemma mapM_entry_lookup self a1 (a l : arr) (k : key) (v : value) :
  mapM (entry self a1) a = Some l ->
  alookup k a = Some v ->
  alookup k l = entryValue self a1 k v.
Proof.
  revert l. induction a as [| [k' v'] t IH]; simpl; intros l H Hl; [discriminate |].
  unfold entry in H at 1. simpl in H.
  destruct (entryValue self a1 k' v') as [w |] eqn:Ew; [| discriminate].
  destruct (mapM (entry self a1) t) eqn:E; [| discriminate].
  inversion H; subst. simpl.
  destruct (key_eqb k k') eqn:Ek.
  - apply key_eqb_eq in Ek. subst. inversion Hl; subst. now symmetry.
  - now apply IH.
Qed.

(** *** [array_merge] and [array_diff_key] *)

Lemma in_keys_renumber_str (s : string) (a : arr) (n : Z) :
  In (KStr s) (array_keys (renumber n a)) <-> In (KStr s) (array_keys a).
Proof.
  revert n. induction a as [| [[i | s'] v] t IH]; intro n; simpl.
  - tauto.
  - rewrite IH. split; intros [H | H]; try discriminate; tauto.
  - rewrite IH. tauto.
Qed.

Lemma in_keys_renumber_int (i : Z) (a : arr) (n : Z) :
  In (KInt i) (array_keys (renumber n a)) -> n <= i.
Proof.
  revert n. induction a as [| [[j | s'] v] t IH]; intro n; simpl.
  - tauto.
  - intros [H | H].
    + injection H as <-. lia.
    + apply IH in H. lia.
  - intros [H | H]; [discriminate | now apply IH].
Qed.

Lemma alookup_renumber_str (s : string) (a : arr) (n : Z) :
  alookup (KStr s) (renumber n a) = alookup (KStr s) a.
Proof.
  revert n. induction a as [| [[i | s'] v] t IH]; intro n; simpl.
  - reflexivity.
  - apply IH.
  - destruct (String.eqb s s'); [reflexivity | apply IH].
Qed.

Lemma renumber_app (a b : arr) (n : Z) :
  renumber n (a ++ b) = renumber n a ++ renumber (next_index n a) b.
Proof.
  revert n. induction a as [| [[i | s'] v] t IH]; intro n; simpl.
  - reflexivity.
  - now rewrite IH.
  - now rewrite IH.
Qed.

Lemma renumber_keys_ext (a b : arr) (n : Z) :
  array_keys a = array_keys b ->
  array_keys (renumber n a) = array_keys (renumber n b).
Proof.
  revert b n. induction a as [| [k v] t IH]; intros [| [k' v'] t'] n H;
    simpl in H; try discriminate; [reflexivity |].
  injection H as -> Ht. destruct k' as [i | s']; simpl; f_equal; now apply IH.
Qed.

Lemma renumber_strings (a : arr) (n : Z) :
  forallb is_string (array_keys a) = true -> renumber n a = a.
Proof.
  induction a as [| [[i | s'] v] t IH]; simpl; intro H.
  - reflexivity.
  - discriminate.
  - f_equal. now apply IH.
Qed.

Lemma renumber_NoDup (a : arr) (n : Z) :
  NoDup (array_keys a) -> NoDup (array_keys (renumber n a)).
Proof.
  revert n. induction a as [| [[i | s'] v] t IH]; intros n H; simpl.
  - constructor.
  - inversion H; subst. constructor; [| now apply IH].
    intro Hin. apply in_keys_renumber_int in Hin. lia.
  - inversion H; subst. constructor; [| now apply IH].
    now rewrite in_keys_renumber_str.
Qed.

Lemma merge_into_fresh (src acc : arr) (n : Z) :
  NoDup (array_keys src) ->
  (forall s, In (KStr s) (array_keys src) -> ~ In (KStr s) (array_keys acc)) ->
  merge_into acc n src = (acc ++ renumber n src, next_index n src).
Proof.
  revert acc n. induction src as [| [[i | s'] v] t IH]; intros acc n Hnd Hfresh.
  - simpl. now rewrite app_nil_r.
  - simpl. inversion Hnd; subst. rewrite IH; [now rewrite <- app_assoc | assumption |].
    intros s Hs Hin. rewrite array_keys_app in Hin. apply in_app_or in Hin.
    destruct Hin as [Hin | [Hin | []]]; [| discriminate].
    apply (Hfresh s); [now right | assumption].
  - simpl. inversion Hnd; subst.
    rewrite aset_fresh by (apply Hfresh; now left).
    rewrite IH; [now rewrite <- app_assoc | assumption |].
    intros s Hs Hin. rewrite array_keys_app in Hin. apply in_app_or in Hin.
    destruct Hin as [Hin | [Hin | []]].
    + apply (Hfresh s); [now right | assumption].
    + injection Hin as ->. contradiction.
Qed.

Lemma array_merge_renumber (a b : arr) :
  NoDup (array_keys a ++ array_keys b) ->
  array_merge a b = renumber 0 (a ++ b).
Proof.
  intro Hnd. unfold array_merge.
  rewrite merge_into_fresh.
  - rewrite merge_into_fresh.
    + simpl. now rewrite renumber_app.
    + eapply NoDup_app_remove_l. exact Hnd.
    + intros s Hs Hin. simpl in Hin. apply in_keys_renumber_str in Hin.
      revert Hs Hin. clear -Hnd.
      induction (array_keys a) as [| k t IH]; simpl in *; [tauto |].
      apply NoDup_cons_iff in Hnd. destruct Hnd as [Hk Hnd]. intros Hs [-> | Hin].
      * apply Hk. apply in_or_app. now right.
      * now apply IH.
  - eapply NoDup_app_remove_r. exact Hnd.
  - intros s _ [].
Qed.

Lemma array_diff_key_In (k : key) (a1 a : arr) :
  In k (array_keys (array_diff_key a1 a)) <->
  In k (array_keys a1) /\ ~ In k (array_keys a).
Proof.
  unfold array_diff_key, array_keys. rewrite in_map_iff. split.
  - intros [[k' v] [<- Hin]]. apply filter_In in Hin. destruct Hin as [Hin Hf].
    simpl in *. split.
    + apply in_map_iff. now exists (k', v).
    + intro Hk. apply array_key_exists_In in Hk. rewrite Hk in Hf. discriminate.
  - intros [Hin Hn]. apply in_map_iff in Hin. destruct Hin as [[k' v] [<- Hin]].
    exists (k', v). split; [reflexivity |]. apply filter_In. split; [assumption |].
    simpl in *. destruct (array_key_exists k' a) eqn:E; [| reflexivity].
    apply array_key_exists_In in E. contradiction.
Qed.

Lemma array_keys_filter (f : key -> bool) (a : arr) :
  array_keys (filter (fun e => f (fst e)) a) = filter f (array_keys a).
Proof.
  induction a as [| [k v] t IH]; simpl; [reflexivity |].
  destruct (f k); simpl; now rewrite IH.
Qed.

Lemma array_diff_key_keys (a1 a : arr) :
  array_keys (array_diff_key a1 a) =
  filter (fun k => negb (mem_key k (array_keys a))) (array_keys a1).
Proof.
  unfold array_diff_key.
  rewrite <- array_keys_filter. f_equal. apply filter_ext. intros [k v]. simpl.
  f_equal. destruct (array_key_exists k a) eqn:E.
  - apply array_key_exists_In, mem_key_In in E. now rewrite E.
  - destruct (mem_key k (array_keys a)) eqn:E'; [| reflexivity].
    apply mem_key_In, array_key_exists_In in E'. congruence.
Qed.

Lemma array_diff_key_NoDup (a1 a : arr) :
  NoDup (array_keys a1) -> NoDup (array_keys (array_diff_key a1 a)).
Proof.
  rewrite array_diff_key_keys. apply NoDup_filter.
Qed.

Lemma NoDup_keys_with_diff (l a a1 : arr) :
  array_keys l = array_keys a ->
  NoDup (array_keys a) -> NoDup (array_keys a1) ->
  NoDup (array_keys l ++ array_keys (array_diff_key a1 a)).
Proof.
  intros -> Ha Ha1. apply NoDup_app.
  - exact Ha.
  - now apply array_diff_key_NoDup.
  - intros k Hk Hin. apply array_diff_key_In in Hin. tauto.
Qed.

(** *** [arrayReplaceSanely] on two arrays *)

Lemma arrayReplaceSanely_unfold (a a1 : arr) :
  arrayReplaceSanely (VArr a) (VArr a1) =
  match replaceLoop arrayReplaceSanely a1 a [] with
  | Some newArray => Some (VArr (array_merge newArray (array_diff_key a1 a)))
  | None => None
  end.
Proof. reflexivity. Qed.

Lemma arrayReplaceSanely_arrays (a a1 : arr) :
  NoDup (array_keys a) -> NoDup (array_keys a1) ->
  arrayReplaceSanely (VArr a) (VArr a1) =
  match mapM (entry arrayReplaceSanely a1) a with
  | Some l => Some (VArr (renumber 0 (l ++ array_diff_key a1 a)))
  | None => None
  end.
Proof.
  intros Ha Ha1. rewrite arrayReplaceSanely_unfold.
  rewrite replaceLoop_mapM by exact Ha.
  destruct (mapM (entry arrayReplaceSanely a1) a) as [l |] eqn:E; [| reflexivity].
  simpl. rewrite array_merge_renumber; [reflexivity |].
  apply NoDup_keys_with_diff; try assumption.
  eapply mapM_entry_keys. exact E.
Qed.

(** *** When the merge returns *)

Lemma value_nested_ind (P : value -> Prop) :
  (forall s, P (VScalar s)) ->
  (forall a, (forall e, In e a -> P (snd e)) -> P (VArr a)) ->
  forall v, P v.
Proof.
  intros Hs Ha. fix IH 1. intros [s | a].
  - apply Hs.
  - apply Ha. induction a as [| e t IHt]; intros e' Hin.
    + destruct Hin.
    + destruct Hin as [<- | Hin]; [apply IH | now apply IHt].
Qed.

Lemma replaceLoop_returns self a1 (a acc : arr) :
  (exists r, replaceLoop self a1 a acc = Some r) <->
  (forall e, In e a -> entryValue self a1 (fst e) (snd e) <> None).
Proof.
  revert acc. induction a as [| [k v] t IH]; intro acc.
  - simpl. split; [intros _ e [] | intros _; now exists acc].
  - cbn [replaceLoop]. split.
    + intros [r Hr] e [<- | Hin].
      * unfold entryValue. cbn [fst snd].
        destruct (alookup k a1) as [value1 |]; [| discriminate].
        destruct v as [sc | inner]; [discriminate |].
        destruct (isAssoc inner); [| discriminate].
        destruct (self (VArr inner) value1); [discriminate | discriminate Hr].
      * revert e Hin. apply (IH (match entryValue self a1 k v with
                                 | Some w => aset k w acc | None => acc end)).
        exists r. unfold entryValue.
        destruct (alookup k a1) as [value1 |]; [| exact Hr].
        destruct v as [sc | inner]; [exact Hr |].
        destruct (isAssoc inner); [| exact Hr].
        destruct (self (VArr inner) value1); [exact Hr | discriminate Hr].
    + intro H.
      assert (Hk := H (k, v) (or_introl eq_refl)). unfold entryValue in Hk.
      cbn [fst snd] in Hk.
      assert (Ht : forall acc', exists r, replaceLoop self a1 t acc' = Some r).
      { intro acc'. apply IH. intros e Hin. apply H. now right. }
      destruct (alookup k a1) as [value1 |]; [| apply Ht].
      destruct v as [sc | inner]; [apply Ht |].
      destruct (isAssoc inner); [| apply Ht].
      destruct (self (VArr inner) value1); [apply Ht | congruence].
Qed.

(** [compatible] tells exactly when [arrayReplaceSanely] returns, and what it
    returns is an array. *)
Lemma arrayReplaceSanely_returns (v v1 : value) :
  compatible v v1 = true <-> exists r, arrayReplaceSanely v v1 = Some (VArr r).
Proof.
  revert v1. induction v as [sc | a IH] using value_nested_ind; intro v1.
  - simpl. split; [discriminate | intros [r Hr]; discriminate].
  - destruct v1 as [sc1 | a1].
    + simpl. split; [discriminate | intros [r Hr]; discriminate].
    + rewrite arrayReplaceSanely_unfold. cbn [compatible]. rewrite forallb_forall.
      assert (Hentry : forall e, In e a ->
                (match snd e, alookup (fst e) a1 with
                 | VArr inner, Some v1' =>
                     if isAssoc inner then compatible (snd e) v1' else true
                 | _, _ => true
                 end = true
                 <-> entryValue arrayReplaceSanely a1 (fst e) (snd e) <> None)).
      { intros [k v] Hin. unfold entryValue. cbn [fst snd].
        specialize (IH _ Hin). cbn [snd] in IH.
        destruct (alookup k a1) as [v1' |].
        - destruct v as [sc | inner]; [split; [discriminate | reflexivity] |].
          destruct (isAssoc inner); [| split; [discriminate | reflexivity]].
          rewrite IH. split.
          + intros [r ->]. discriminate.
          + intro Hn. destruct (arrayReplaceSanely (VArr inner) v1') as [m |] eqn:E;
              [| congruence].
            destruct m as [sc | r]; [| now exists r].
            destruct v1' as [sc1 | a1']; [discriminate E |].
            rewrite arrayReplaceSanely_unfold in E.
            destruct (replaceLoop arrayReplaceSanely a1' inner []); discriminate E.
        - destruct v; split; try discriminate; reflexivity. }
      split.
      * intro H.
        destruct (proj2 (replaceLoop_returns arrayReplaceSanely a1 a [])) as [r Hr].
        { intros e Hin. apply Hentry; auto. }
        rewrite Hr. eexists. reflexivity.
      * intros [r Hr] e Hin. apply Hentry; [assumption |].
        apply (proj1 (replaceLoop_returns arrayReplaceSanely a1 a [])); [| assumption].
        destruct (replaceLoop arrayReplaceSanely a1 a []); [eexists; reflexivity | discriminate].
Qed.

Lemma arrayReplaceSanely_entries (a a1 : arr) :
  NoDup (array_keys a) -> NoDup (array_keys a1) ->
  compatible (VArr a) (VArr a1) = true ->
  exists l,
    mapM (entry arrayReplaceSanely a1) a = Some l
    /\ arrayReplaceSanely (VArr a) (VArr a1)
       = Some (VArr (renumber 0 (l ++ array_diff_key a1 a))).
Proof.
  intros Ha Ha1 Hc. apply arrayReplaceSanely_returns in Hc. destruct Hc as [r Hr].
  rewrite arrayReplaceSanely_arrays in * by assumption.
  destruct (mapM (entry arrayReplaceSanely a1) a) as [l |]; [| discriminate].
  now exists l.
Qed.

End PhpArrays.

(** ** Merging an array with itself *)

Section SelfMerge.

Local Open Scope Z_scope.

Lemma sequential_renumber (a : arr) (n : Z) :
  sequential n (array_keys a) = true <-> renumber n a = a.
Proof.
  revert n. induction a as [| [[i | s] v] t IH]; intro n; simpl.
  - tauto.
  - rewrite andb_true_iff, Z.eqb_eq, IH. split.
    + intros [-> ->]. reflexivity.
    + intro H. injection H as -> H. rewrite H. tauto.
  - rewrite IH. split; [intros ->; reflexivity | intro H; now injection H].
Qed.

Lemma sequential_keys_renumber (a : arr) (n : Z) :
  sequential n (array_keys (renumber n a)) = true.
Proof.
  revert n. induction a as [| [[i | s] v] t IH]; intro n; simpl.
  - reflexivity.
  - now rewrite Z.eqb_refl, IH.
  - apply IH.
Qed.

Lemma mapM_same {A : Type} (f : A -> option A) (l : list A) :
  (forall x, In x l -> f x = Some x) -> mapM f l = Some l.
Proof.
  induction l as [| x t IH]; simpl; intro H; [reflexivity |].
  rewrite H by now left. rewrite IH; [reflexivity |].
  intros y Hy. apply H. now right.
Qed.

Lemma alookup_NoDup (a : arr) (k : key) (v : value) :
  NoDup (array_keys a) -> In (k, v) a -> alookup k a = Some v.
Proof.
  induction a as [| [k' v'] t IH]; simpl; intros Hnd Hin; [destruct Hin |].
  apply NoDup_cons_iff in Hnd. destruct Hnd as [Hk Hnd]. destruct Hin as [E | Hin].
  - injection E as -> ->. now rewrite key_eqb_refl.
  - destruct (key_eqb k k') eqn:Ek.
    + apply key_eqb_eq in Ek. subst. exfalso. apply Hk.
      change k' with (fst (k', v)). now apply in_map.
    + now apply IH.
Qed.

Lemma array_diff_key_covered (a1 a : arr) :
  (forall k, In k (array_keys a1) -> In k (array_keys a)) ->
  array_diff_key a1 a = [].
Proof.
  intro H. unfold array_diff_key.
  induction a1 as [| [k v] t IH]; simpl; [reflexivity |].
  assert (Hk : array_key_exists k a = true).
  { apply array_key_exists_In. apply H. now left. }
  rewrite Hk. simpl. apply IH. intros k' Hk'. apply H. now right.
Qed.

Lemma renumber_values (a : arr) (n : Z) :
  map snd (renumber n a) = map snd a.
Proof.
  revert n. induction a as [| [[i | s] v] t IH]; intro n; simpl;
    [reflexivity | |]; now rewrite IH.
Qed.

Lemma mapM_entry_values self a1 (a l : arr) :
  mapM (entry self a1) a = Some l ->
  map snd l = map snd a ->
  forall e, In e a -> entryValue self a1 (fst e) (snd e) = Some (snd e).
Proof.
  revert l. induction a as [| [k v] t IH]; simpl; intros l H Hv e Hin; [destruct Hin |].
  unfold entry in H at 1. cbn [fst snd] in H.
  destruct (entryValue self a1 k v) as [w |] eqn:Ew; [| discriminate].
  destruct (mapM (entry self a1) t) as [l' |] eqn:E; [| discriminate].
  inversion H; subst. simpl in Hv. injection Hv as -> Hv.
  destruct Hin as [<- | Hin]; [exact Ew |]. now apply (IH l').
Qed.

Lemma wf_entries (a : arr) :
  wf (VArr a) = true ->
  NoDup (array_keys a) /\ forall e, In e a -> wf (snd e) = true.
Proof.
  simpl. rewrite andb_true_iff, nodup_keys_NoDup, forallb_forall. tauto.
Qed.

Lemma self_merge_entry (a : arr) (e : key * value) :
  NoDup (array_keys a) -> In e a ->
  entryValue arrayReplaceSanely a (fst e) (snd e)
  = if is_assoc_array (snd e) then arrayReplaceSanely (snd e) (snd e)
    else Some (snd e).
Proof.
  intros Hnd Hin. destruct e as [k v]. unfold entryValue. cbn [fst snd].
  rewrite (alookup_NoDup a k v Hnd Hin).
  destruct v as [sc | inner]; [reflexivity |]. simpl.
  now destruct (isAssoc inner).
Qed.

Lemma stable_entries (a : arr) :
  stable (VArr a) = true <->
  sequential 0 (array_keys a) = true
  /\ forall e, In e a -> is_assoc_array (snd e) = true -> stable (snd e) = true.
Proof.
  cbn [stable]. rewrite andb_true_iff, forallb_forall.
  split; intros [Hs He]; (split; [exact Hs |]); intros [k v] Hin.
  - specialize (He _ Hin). cbn [snd] in *.
    destruct v as [sc | inner]; [discriminate |]. simpl.
    intro Ha. now rewrite Ha in He.
  - specialize (He _ Hin). cbn [snd] in *.
    destruct v as [sc | inner]; [reflexivity |]. simpl in He.
    destruct (isAssoc inner); [now apply He | reflexivity].
Qed.

Lemma self_merge_arrays (a : arr) :
  NoDup (array_keys a) ->
  arrayReplaceSanely (VArr a) (VArr a) =
  match mapM (entry arrayReplaceSanely a) a with
  | Some l => Some (VArr (renumber 0 l))
  | None => None
  end.
Proof.
  intro Hnd. rewrite arrayReplaceSanely_arrays by assumption.
  rewrite array_diff_key_covered by auto.
  destruct (mapM (entry arrayReplaceSanely a) a); [| reflexivity].
  now rewrite app_nil_r.
Qed.

Lemma self_merge_stable (v : value) :
  wf v = true ->
  forall a, v = VArr a ->
  (arrayReplaceSanely v v = Some v <-> stable v = true).
Proof.
  induction v as [sc | a0 IH] using value_nested_ind; intros Hwf a Ea;
    [discriminate |].
  clear a Ea. apply wf_entries in Hwf. destruct Hwf as [Hnd Hwf].
  rewrite self_merge_arrays by assumption. rewrite stable_entries. split.
  - destruct (mapM (entry arrayReplaceSanely a0) a0) as [l |] eqn:El; [| discriminate].
    intro H. injection H as H.
    assert (Hk := mapM_entry_keys _ _ _ _ El).
    split.
    + rewrite <- H. apply sequential_keys_renumber.
    + intros e Hin Ha.
      assert (Hv : map snd l = map snd a0).
      { rewrite <- H. now rewrite renumber_values. }
      assert (He := mapM_entry_values _ _ _ _ El Hv e Hin).
      rewrite (self_merge_entry a0 e Hnd Hin), Ha in He.
      destruct (snd e) as [sc | inner] eqn:Ee; [discriminate |].
      rewrite <- Ee in He |- *.
      apply (IH e Hin (Hwf e Hin) inner Ee). exact He.
  - intros [Hs He].
    rewrite (mapM_same (entry arrayReplaceSanely a0) a0).
    + f_equal. f_equal. now apply sequential_renumber.
    + intros e Hin. unfold entry.
      rewrite (self_merge_entry a0 e Hnd Hin).
      destruct (is_assoc_array (snd e)) eqn:Ha.
      * destruct (snd e) as [sc | inner] eqn:Ee; [discriminate |].
        assert (Hm : arrayReplaceSanely (snd e) (snd e) = Some (snd e)).
        { apply (IH e Hin (Hwf e Hin) inner Ee).
          apply He; [assumption |]. now rewrite Ee. }
        rewrite Ee in Hm. rewrite Hm. rewrite <- Ee. now destruct e.
      * now destruct e.
Qed.

(** C7, for trees with stable keys: merging a tree with itself gives the
    tree back when its integer keys, and those of every associative array nested in it outside
    a list, are 0, 1, 2, ... in order of appearance; so in particular when
    all those keys are strings. *)
Theorem arrayReplaceSanely_idempotent (x : arr) :
  wf (VArr x) = true ->
  stable (VArr x) = true ->
  arrayReplaceSanely (VArr x) (VArr x) = Some (VArr x).
Proof.
  intros Hwf Hst. now apply (self_merge_stable (VArr x) Hwf x eq_refl).
Qed.

Lemma arrayReplaceSanely_idempotent_witness :
  arrayReplaceSanely (VArr sample_defaults) (VArr sample_defaults)
  = Some (VArr sample_defaults).
Proof.
  apply (arrayReplaceSanely_idempotent sample_defaults); reflexivity.
Defined.

(** C7 does not hold for a tree with an integer key that is not its
    position among the integer keys. *)
Lemma idempotent_integer_key_counterexample :
  let x := VArr [(KStr "debug", VScalar (SBool false)); (KInt 7, VScalar (SStr "x"))] in
  wf x = true
  /\ arrayReplaceSanely x x
     = Some (VArr [(KStr "debug", VScalar (SBool false)); (KInt 0, VScalar (SStr "x"))])
  /\ arrayReplaceSanely x x <> Some x.
Proof.
  repeat split. discriminate.
Qed.

End SelfMerge.

(** ** What [array_merge] returns, whatever it is given *)

Section Canonical.

Local Open Scope Z_scope.

Lemma keys_aset (k : key) (v : value) (a : arr) :
  array_keys (aset k v a)
  = if mem_key k (array_keys a) then array_keys a else array_keys a ++ [k].
Proof.
  induction a as [| [k' v'] t IH]; simpl; [reflexivity |].
  destruct (key_eqb k k') eqn:E; simpl; [reflexivity |].
  rewrite IH. unfold mem_key. now destruct (existsb (key_eqb k) (array_keys t)).
Qed.

Lemma next_index_keys_ext (a b : arr) (n : Z) :
  array_keys a = array_keys b -> next_index n a = next_index n b.
Proof.
  revert b n. induction a as [| [k v] t IH]; intros [| [k' v'] t'] n H;
    simpl in H; try discriminate; [reflexivity |].
  injection H as -> Ht. destruct k'; simpl; now apply IH.
Qed.

Lemma next_index_app (a b : arr) (n : Z) :
  next_index n (a ++ b) = next_index (next_index n a) b.
Proof.
  revert n. induction a as [| [[i | s] v] t IH]; intro n; simpl;
    [reflexivity | |]; apply IH.
Qed.

Lemma sequential_app (a b : arr) (n : Z) :
  sequential n (array_keys (a ++ b))
  = sequential n (array_keys a) && sequential (next_index n a) (array_keys b).
Proof.
  revert n. induction a as [| [[i | s] v] t IH]; intro n; simpl.
  - reflexivity.
  - rewrite IH. now rewrite andb_assoc.
  - apply IH.
Qed.

Lemma next_index_le (a : arr) (n : Z) : n <= next_index n a.
Proof.
  revert n. induction a as [| [[i | s] v] t IH]; intro n; simpl.
  - lia.
  - specialize (IH (n + 1)). lia.
  - apply IH.
Qed.

Lemma sequential_bound (a : arr) (n i : Z) :
  sequential n (array_keys a) = true ->
  In (KInt i) (array_keys a) -> n <= i < next_index n a.
Proof.
  revert n. induction a as [| [[j | s] v] t IH]; intro n; simpl.
  - tauto.
  - rewrite andb_true_iff, Z.eqb_eq. intros [-> Hs] [H | H].
    + injection H as <-. pose proof (next_index_le t (n + 1)). lia.
    + specialize (IH _ Hs H). lia.
  - intros Hs [H | H]; [discriminate | now apply IH].
Qed.

Lemma merge_into_canonical (src acc : arr) (n : Z) :
  canonical acc -> next_index 0 acc = n ->
  canonical (fst (merge_into acc n src)).
Proof.
  revert acc n. induction src as [| [[i | s] v] t IH]; intros acc n [Hnd Hs] Hn.
  - simpl. now split.
  - simpl. apply IH.
    + split.
      * rewrite array_keys_app. simpl. apply NoDup_app; [assumption | | ].
        -- constructor; [intros [] | constructor].
        -- intros k Hk [<- | []].
           apply (sequential_bound acc 0 n Hs) in Hk. lia.
      * rewrite sequential_app, Hs, Hn. simpl. now rewrite Z.eqb_refl.
    + rewrite next_index_app, Hn. reflexivity.
  - simpl. apply IH.
    + assert (Hk := keys_aset (KStr s) v acc).
      destruct (mem_key (KStr s) (array_keys acc)) eqn:E.
      * split; rewrite Hk; assumption.
      * split.
        -- rewrite Hk. apply NoDup_app; [assumption | | ].
           ++ constructor; [intros [] | constructor].
           ++ intros k Hin [<- | []]. apply mem_key_In in Hin. congruence.
        -- replace (aset (KStr s) v acc) with (acc ++ [(KStr s, v)]).
           ++ rewrite sequential_app, Hs. reflexivity.
           ++ symmetry. apply aset_fresh. intro Hin.
              apply mem_key_In in Hin. congruence.
    + destruct (mem_key (KStr s) (array_keys acc)) eqn:E.
      * rewrite <- Hn. apply next_index_keys_ext.
        rewrite keys_aset, E. reflexivity.
      * rewrite aset_fresh.
        -- rewrite next_index_app, Hn. reflexivity.
        -- intro Hin. apply mem_key_In in Hin. congruence.
Qed.

Lemma merge_into_next (src acc : arr) (n : Z) :
  canonical acc -> next_index 0 acc = n ->
  next_index 0 (fst (merge_into acc n src)) = snd (merge_into acc n src).
Proof.
  revert acc n. induction src as [| [[i | s] v] t IH]; intros acc n Hc Hn.
  - exact Hn.
  - simpl. apply IH.
    + replace (acc ++ [(KInt n, v)]) with (fst (merge_into acc n [(KInt i, v)]))
        by reflexivity.
      now apply merge_into_canonical.
    + rewrite next_index_app, Hn. reflexivity.
  - simpl. apply IH.
    + replace (aset (KStr s) v acc) with (fst (merge_into acc n [(KStr s, v)]))
        by reflexivity.
      now apply merge_into_canonical.
    + destruct (mem_key (KStr s) (array_keys acc)) eqn:E.
      * rewrite <- Hn. apply next_index_keys_ext.
        rewrite keys_aset, E. reflexivity.
      * rewrite aset_fresh.
        -- rewrite next_index_app, Hn. reflexivity.
        -- intro Hin. apply mem_key_In in Hin. congruence.
Qed.

Lemma array_merge_canonical (a b : arr) : canonical (array_merge a b).
Proof.
  unfold array_merge.
  assert (H0 : canonical []) by (split; [constructor | reflexivity]).
  pose proof (merge_into_canonical a [] 0 H0 eq_refl) as Ha.
  pose proof (merge_into_next a [] 0 H0 eq_refl) as Hn.
  destruct (merge_into [] 0 a) as [acc n]. simpl in *.
  now apply merge_into_canonical.
Qed.

Lemma arrayReplaceSanely_canonical (v v1 r : value) :
  arrayReplaceSanely v v1 = Some r -> exists c, r = VArr c /\ canonical c.
Proof.
  destruct v as [sc | a], v1 as [sc1 | a1]; try discriminate.
  rewrite arrayReplaceSanely_unfold.
  destruct (replaceLoop arrayReplaceSanely a1 a []) as [newArray |]; [| discriminate].
  intro H. injection H as <-. eexists. split; [reflexivity |].
  apply array_merge_canonical.
Qed.

Lemma arrayReplaceSanely_empty_overlay (c : arr) :
  NoDup (array_keys c) ->
  arrayReplaceSanely (VArr c) (VArr []) = Some (VArr (renumber 0 c)).
Proof.
  intro Hnd. rewrite arrayReplaceSanely_arrays; [| assumption | constructor].
  rewrite mapM_same.
  - simpl. now rewrite app_nil_r.
  - intros [k v] _. reflexivity.
Qed.

End Canonical.

(** ** [getConfig] and the campaign layer *)

Section ConfigLayers.

Variable getDefaultConfig : value.
Variable newFromName : string -> option Campaign.

Lemma mergeDefaults_canonical (st st1 : State) :
  (mergedConfig st = true ->
   exists c, wgUploadWizardConfig st = VArr c /\ canonical c) ->
  mergeDefaults getDefaultConfig st = Some st1 ->
  mergedConfig st1 = true
  /\ exists c, wgUploadWizardConfig st1 = VArr c /\ canonical c.
Proof.
  unfold mergeDefaults. intros Hinv.
  destruct (mergedConfig st) eqn:Em.
  - intro H. injection H as <-. auto.
  - destruct (arrayReplaceSanely getDefaultConfig (wgUploadWizardConfig st))
      as [merged |] eqn:E; [| discriminate].
    intro H. injection H as <-. simpl. split; [reflexivity |].
    eapply arrayReplaceSanely_canonical. exact E.
Qed.

Lemma mergeCampaign_canonical (name : option string) (st1 st2 : State) :
  (mergedConfig st1 = true ->
   exists c, wgUploadWizardConfig st1 = VArr c /\ canonical c) ->
  mergeCampaign newFromName name st1 = Some st2 ->
  mergedConfig st2 = true ->
  exists c, wgUploadWizardConfig st2 = VArr c /\ canonical c.
Proof.
  unfold mergeCampaign. intros Hinv. destruct name as [n |].
  - destruct (arrayReplaceSanely (wgUploadWizardConfig st1)
                (getCampaignConfig newFromName (Some n))) as [merged |] eqn:E;
      [| discriminate].
    intro H. injection H as <-. simpl. intros _.
    eapply arrayReplaceSanely_canonical. exact E.
  - intro H. injection H as <-. exact Hinv.
Qed.

Lemma getConfig_state (name : option string) (st : State) :
  snd (getConfig getDefaultConfig newFromName name st)
  = match mergeDefaults getDefaultConfig st with
    | None => st
    | Some st1 =>
        match mergeCampaign newFromName name st1 with
        | None => st1
        | Some st2 => st2
        end
    end.
Proof.
  unfold getConfig.
  destruct (mergeDefaults getDefaultConfig st) as [st1 |]; [| reflexivity].
  destruct (mergeCampaign newFromName name st1) as [st2 |]; [| reflexivity].
  now destruct (wgUploadWizardConfig st2).
Qed.

(** Once the defaults are merged in, the global is an array with the keys
    [array_merge] leaves. *)
Lemma reachable_canonical (st : State) :
  reachable getDefaultConfig newFromName st ->
  mergedConfig st = true ->
  exists c, wgUploadWizardConfig st = VArr c /\ canonical c.
Proof.
  induction 1 as [site url | name st Hr IH | k v st Hr IH].
  - discriminate.
  - rewrite getConfig_state.
    destruct (mergeDefaults getDefaultConfig st) as [st1 |] eqn:E1; [| exact IH].
    destruct (mergeDefaults_canonical st st1 IH E1) as [Hm1 Hc1].
    destruct (mergeCampaign newFromName name st1) as [st2 |] eqn:E2.
    + exact (mergeCampaign_canonical name st1 st2 (fun _ => Hc1) E2).
    + intros _. exact Hc1.
  - exact IH.
Qed.

(** C8, with the renumbering of integer keys: a campaign that is not found
    or not enabled gives the empty array and no error; merging the empty
    array into an array raises
    no error and only renumbers the integer keys at the top, so it leaves
    unchanged every array whose integer keys are 0, 1, 2, ... in order; and
    in every state of a process [getConfig] with such a campaign does what
    [getConfig] without a campaign does. *)
Theorem unavailable_campaign_is_noop (name : string) :
  unavailable newFromName name = true ->
  getCampaignConfig newFromName (Some name) = VArr []
  /\ (forall c, nodup_keys (array_keys c) = true ->
       arrayReplaceSanely (VArr c) (getCampaignConfig newFromName (Some name))
       = Some (VArr (renumber 0 c))
       /\ (sequential 0 (array_keys c) = true -> renumber 0 c = c))
  /\ (forall st, reachable getDefaultConfig newFromName st ->
       getConfig getDefaultConfig newFromName (Some name) st
       = getConfig getDefaultConfig newFromName None st).
Proof.
  intro Hu.
  assert (Hempty : getCampaignConfig newFromName (Some name) = VArr []).
  { unfold getCampaignConfig. unfold unavailable in Hu.
    destruct (newFromName name) as [campaign |]; [| reflexivity].
    apply negb_true_iff in Hu. now rewrite Hu. }
  split; [exact Hempty |]. split.
  - intros c Hnd. rewrite Hempty. split.
    + apply arrayReplaceSanely_empty_overlay. now apply nodup_keys_NoDup.
    + apply sequential_renumber.
  - intros st Hr. unfold getConfig.
    destruct (mergeDefaults getDefaultConfig st) as [st1 |] eqn:E1; [| reflexivity].
    destruct (mergeDefaults_canonical st st1 (reachable_canonical st Hr) E1)
      as [Hm1 [c [Hc [Hnd Hseq]]]].
    unfold mergeCampaign at 1. rewrite Hempty, Hc.
    rewrite (arrayReplaceSanely_empty_overlay c Hnd).
    apply sequential_renumber in Hseq. rewrite Hseq. simpl.
    destruct st1 as [wg m url]. simpl in *. subst. reflexivity.
Qed.

End ConfigLayers.

Lemma unavailable_campaign_is_noop_witness :
  getCampaignConfig sample_campaigns (Some "old"%string) = VArr []
  /\ (forall c, nodup_keys (array_keys c) = true ->
       arrayReplaceSanely (VArr c) (getCampaignConfig sample_campaigns (Some "old"%string))
       = Some (VArr (renumber 0 c))
       /\ (sequential 0 (array_keys c) = true -> renumber 0 c = c))
  /\ (forall st, reachable (VArr sample_defaults) sample_campaigns st ->
       getConfig (VArr sample_defaults) sample_campaigns (Some "old"%string) st
       = getConfig (VArr sample_defaults) sample_campaigns None st).
Proof.
  apply (unavailable_campaign_is_noop (VArr sample_defaults) sample_campaigns "old").
  reflexivity.
Defined.

(** C8 does not hold for a tree with an integer key that is not its
    position among the integer keys: merging the empty array changes it. *)
Lemma empty_overlay_integer_key_counterexample :
  let c := [(KStr "debug", VScalar (SBool false)); (KInt 7, VScalar (SStr "x"))] in
  unavailable sample_campaigns "missing" = true
  /\ getCampaignConfig sample_campaigns (Some "missing"%string) = VArr []
  /\ arrayReplaceSanely (VArr c) (VArr [])
     = Some (VArr [(KStr "debug", VScalar (SBool false)); (KInt 0, VScalar (SStr "x"))])
  /\ arrayReplaceSanely (VArr c) (VArr []) <> Some (VArr c).
Proof.
  repeat split. discriminate.
Qed.

(** C9: the campaign layer is assigned to the global, so a call with a
    campaign changes what a later call without one returns. *)
Theorem getConfig_campaign_persists :
  let st0 := mkState (VArr sample_site) false [] in
  let config := getConfig (VArr sample_defaults) sample_campaigns in
  let merged debug :=
    VArr [(KStr "debug", VScalar (SBool debug));
          (KStr "tutorial",
           VArr [(KStr "skip", VScalar (SBool true)); (KStr "width", VScalar (SInt 720))]);
          (KStr "fileExtensions", VArr [(KInt 0, VScalar (SStr "ogg"))]);
          (KStr "altUploadForm", VScalar (SStr "Special:Upload"))] in
  fst (config None st0) = Returned (merged false)
  /\ fst (config (Some "wlm"%string) st0) = Returned (merged true)
  /\ wgUploadWizardConfig (snd (config None st0)) = merged false
  /\ wgUploadWizardConfig (snd (config (Some "wlm"%string) st0)) = merged true
  /\ fst (config None (snd (config (Some "wlm"%string) st0))) = Returned (merged true)
  /\ fst (config None (snd (config (Some "wlm"%string) st0))) <> fst (config None st0).
Proof.
  repeat split. discriminate.
Qed.

(** ** [arrayReplaceSanely]: replacement, recursion, key order *)

Section MergeResults.

Lemma merged_key_string (a : arr) (n : Z) (s : string) :
  merged_key n a (KStr s) = KStr s.
Proof.
  revert n. induction a as [| [k' v'] t IH]; intro n; simpl; [reflexivity |].
  destruct k' as [i | s']; [apply IH |].
  destruct (String.eqb s s'); [reflexivity | apply IH].
Qed.

Lemma merged_key_integer (a : arr) (n i : Z) :
  In (KInt i) (array_keys a) ->
  exists m, merged_key n a (KInt i) = KInt m /\ (n <= m)%Z.
Proof.
  revert n. induction a as [| [k' v'] t IH]; intros n Hin; [destruct Hin |].
  cbn [merged_key]. destruct (key_eqb (KInt i) k') eqn:E.
  - exists n. split; [reflexivity | lia].
  - destruct Hin as [Hk | Hin].
    + simpl in Hk. subst k'. now rewrite key_eqb_refl in E.
    + destruct k' as [i' | s'].
      * destruct (IH (n + 1)%Z Hin) as [m [Hm Hle]]. exists m. split; [exact Hm | lia].
      * exact (IH n Hin).
Qed.

Lemma merged_key_sequential (a : arr) (n : Z) (k : key) :
  sequential n (array_keys a) = true -> merged_key n a k = k.
Proof.
  revert n. induction a as [| [k' v'] t IH]; intros n Hs; cbn [merged_key];
    [reflexivity |].
  destruct (key_eqb k k') eqn:E.
  - apply key_eqb_eq in E. subst k'. destruct k as [i | s]; [| reflexivity].
    simpl in Hs. apply andb_true_iff in Hs. destruct Hs as [Hi _].
    apply Z.eqb_eq in Hi. now subst.
  - destruct k' as [i' | s']; simpl in Hs.
    + apply andb_true_iff in Hs. destruct Hs as [_ Hs]. now apply IH.
    + now apply IH.
Qed.

Lemma merged_key_keys_ext (a b : arr) (n : Z) (k : key) :
  array_keys a = array_keys b -> merged_key n a k = merged_key n b k.
Proof.
  revert b n. induction a as [| [k1 v1] t IH]; intros [| [k2 v2] t'] n H;
    simpl in H; try discriminate; [reflexivity |].
  injection H as -> Ht. cbn [merged_key]. destruct (key_eqb k k2); [reflexivity |].
  now apply IH.
Qed.

Lemma merged_key_app (a b : arr) (n : Z) (k : key) :
  In k (array_keys a) -> merged_key n (a ++ b) k = merged_key n a k.
Proof.
  revert n. induction a as [| [k' v'] t IH]; intros n Hin; [destruct Hin |].
  cbn [app merged_key]. destruct (key_eqb k k') eqn:E; [reflexivity |].
  apply IH. destruct Hin as [Hk | Hin]; [| exact Hin].
  simpl in Hk. subst k'. now rewrite key_eqb_refl in E.
Qed.

(** The entry an array holds under [k] is found, after renumbering, under
    [merged_key]. *)
Lemma alookup_renumber_merged (a : arr) (n : Z) (k : key) (v : value) :
  alookup k a = Some v ->
  alookup (merged_key n a k) (renumber n a) = Some v.
Proof.
  revert n. induction a as [| [k' v'] t IH]; intros n Hl; [discriminate |].
  cbn [alookup] in Hl. cbn [merged_key]. destruct (key_eqb k k') eqn:E.
  - apply key_eqb_eq in E. subst k'. injection Hl as ->.
    destruct k as [i | s]; simpl.
    + now rewrite Z.eqb_refl.
    + now rewrite String.eqb_refl.
  - assert (Hin : In k (array_keys t)) by (eapply alookup_In; exact Hl).
    destruct k' as [i' | s']; simpl renumber; cbn [alookup].
    + assert (Hne : key_eqb (merged_key (n + 1) t k) (KInt n) = false).
      { destruct k as [i | s].
        - destruct (merged_key_integer t (n + 1) i Hin) as [m [-> Hle]].
          simpl. apply Z.eqb_neq. lia.
        - now rewrite merged_key_string. }
      rewrite Hne. now apply IH.
    + assert (Hne : key_eqb (merged_key n t k) (KStr s') = false).
      { destruct k as [i | s].
        - destruct (merged_key_integer t n i Hin) as [m [-> _]]. reflexivity.
        - rewrite merged_key_string. exact E. }
      rewrite Hne. now apply IH.
Qed.

(** Where the merge leaves the entry of a key of the base. *)
Lemma arrayReplaceSanely_entry_of_base (base overlay l : arr) (k : key) (bv : value) :
  mapM (entry arrayReplaceSanely overlay) base = Some l ->
  alookup k base = Some bv ->
  alookup (merged_key 0 base k) (renumber 0 (l ++ array_diff_key overlay base))
  = entryValue arrayReplaceSanely overlay k bv.
Proof.
  intros Hl Hbv.
  assert (Hkeys := mapM_entry_keys _ _ _ _ Hl).
  assert (Hin : In k (array_keys l)).
  { rewrite Hkeys. eapply alookup_In. exact Hbv. }
  assert (Hlook := mapM_entry_lookup _ _ _ _ _ _ Hl Hbv).
  rewrite <- (merged_key_keys_ext l base 0 k Hkeys).
  rewrite <- (merged_key_app l (array_diff_key overlay base) 0 k Hin).
  destruct (entryValue arrayReplaceSanely overlay k bv) as [w |] eqn:Ew.
  - apply alookup_renumber_merged. now rewrite alookup_app, Hlook.
  - exfalso. apply alookup_None in Hlook. contradiction.
Qed.

(** C1, for the key the entry ends up with: under a key held by both arrays,
    a scalar or an array without string keys in the base is replaced by the
    overlay's value as it is, whenever the merge meets no [TypeError]; the
    value is stored under the key [array_merge] gives the entry, which is
    the key itself when it is a string or when the integer keys of the base
    are 0, 1, 2, ... in order of appearance. *)
Theorem arrayReplaceSanely_replaces_scalars_and_lists
    (base overlay : arr) (k : key) (bv ov : value) :
  nodup_keys (array_keys base) = true ->
  nodup_keys (array_keys overlay) = true ->
  compatible (VArr base) (VArr overlay) = true ->
  alookup k base = Some bv ->
  replaced bv = true ->
  alookup k overlay = Some ov ->
  exists r,
    arrayReplaceSanely (VArr base) (VArr overlay) = Some (VArr r)
    /\ alookup (merged_key 0 base k) r = Some ov
    /\ (is_string k = true \/ sequential 0 (array_keys base) = true ->
        alookup k r = Some ov).
Proof.
  intros Hb Ho Hc Hbv Hrep Hov.
  apply nodup_keys_NoDup in Hb, Ho.
  destruct (arrayReplaceSanely_entries base overlay Hb Ho Hc) as [l [Hl Hr]].
  assert (Hstored : alookup (merged_key 0 base k)
                      (renumber 0 (l ++ array_diff_key overlay base)) = Some ov).
  { rewrite (arrayReplaceSanely_entry_of_base base overlay l k bv Hl Hbv).
    unfold entryValue. rewrite Hov.
    destruct bv as [sc | inner]; [reflexivity |].
    simpl in Hrep. apply negb_true_iff in Hrep. now rewrite Hrep. }
  eexists. split; [exact Hr |]. split; [exact Hstored |].
  intros [Hs | Hs].
  - destruct k as [i | s]; [discriminate |].
    now rewrite merged_key_string in Hstored.
  - now rewrite (merged_key_sequential base 0 k Hs) in Hstored.
Qed.

Lemma arrayReplaceSanely_replaces_scalars_and_lists_witness :
  let base :=
    [(KStr "debug", VScalar (SBool false));
     (KInt 0, VArr [(KInt 0, VScalar (SStr "jpg")); (KInt 1, VScalar (SStr "png"))])] in
  let overlay :=
    [(KStr "debug", VScalar (SBool true));
     (KInt 0, VArr [(KInt 0, VScalar (SStr "ogg"))])] in
  exists r,
    arrayReplaceSanely (VArr base) (VArr overlay) = Some (VArr r)
    /\ alookup (merged_key 0 base (KInt 0)) r
       = Some (VArr [(KInt 0, VScalar (SStr "ogg"))])
    /\ (is_string (KInt 0) = true \/ sequential 0 (array_keys base) = true ->
        alookup (KInt 0) r = Some (VArr [(KInt 0, VScalar (SStr "ogg"))])).
Proof.
  intros base overlay.
  apply (arrayReplaceSanely_replaces_scalars_and_lists base overlay (KInt 0)
           (VArr [(KInt 0, VScalar (SStr "jpg")); (KInt 1, VScalar (SStr "png"))])
           (VArr [(KInt 0, VScalar (SStr "ogg"))]));
    reflexivity.
Defined.

(** C1 does not hold under an integer key that is not its position among
    the integer keys of the base: [array_merge] renumbers the entry, and the
    result holds nothing under the key the arrays share. *)
Lemma replaces_scalars_integer_key_counterexample :
  let base := [(KStr "debug", VScalar (SBool false)); (KInt 7, VScalar (SStr "x"))] in
  let overlay := [(KStr "debug", VScalar (SBool true)); (KInt 7, VScalar (SStr "y"))] in
  alookup (KInt 7) base = Some (VScalar (SStr "x"))
  /\ alookup (KInt 7) overlay = Some (VScalar (SStr "y"))
  /\ arrayReplaceSanely (VArr base) (VArr overlay)
     = Some (VArr [(KStr "debug", VScalar (SBool true)); (KInt 0, VScalar (SStr "y"))])
  /\ alookup (KInt 7)
       [(KStr "debug", VScalar (SBool true)); (KInt 0, VScalar (SStr "y"))]
     <> alookup (KInt 7) overlay.
Proof.
  repeat split; try reflexivity. discriminate.
Qed.

(** C2, for the key the entry ends up with: under a key at which both arrays
    hold an associative array, the result holds the recursive merge of the
    two, stored under the key [array_merge] gives the entry, which is the
    key itself when it is a string or when the integer keys of the base are
    0, 1, 2, ... in order of appearance. *)
Theorem arrayReplaceSanely_recurses_into_associative
    (base overlay : arr) (k : key) (bv ov : value) :
  nodup_keys (array_keys base) = true ->
  nodup_keys (array_keys overlay) = true ->
  compatible (VArr base) (VArr overlay) = true ->
  alookup k base = Some bv ->
  is_assoc_array bv = true ->
  alookup k overlay = Some ov ->
  is_assoc_array ov = true ->
  exists r m,
    arrayReplaceSanely (VArr base) (VArr overlay) = Some (VArr r)
    /\ arrayReplaceSanely bv ov = Some m
    /\ alookup (merged_key 0 base k) r = Some m
    /\ (is_string k = true \/ sequential 0 (array_keys base) = true ->
        alookup k r = Some m).
Proof.
  intros Hb Ho Hc Hbv Hab Hov _.
  apply nodup_keys_NoDup in Hb, Ho.
  destruct (arrayReplaceSanely_entries base overlay Hb Ho Hc) as [l [Hl Hr]].
  assert (Hstored : alookup (merged_key 0 base k)
                      (renumber 0 (l ++ array_diff_key overlay base))
                    = arrayReplaceSanely bv ov).
  { rewrite (arrayReplaceSanely_entry_of_base base overlay l k bv Hl Hbv).
    unfold entryValue. rewrite Hov.
    destruct bv as [sc | inner]; [discriminate |].
    simpl in Hab. now rewrite Hab. }
  destruct (arrayReplaceSanely bv ov) as [m |] eqn:Em.
  - exists (renumber 0 (l ++ array_diff_key overlay base)), m.
    split; [exact Hr |]. split; [reflexivity |]. split; [exact Hstored |].
    intros [Hs | Hs].
    + destruct k as [i | s]; [discriminate |].
      now rewrite merged_key_string in Hstored.
    + now rewrite (merged_key_sequential base 0 k Hs) in Hstored.
  - exfalso.
    assert (Hlook := mapM_entry_lookup _ _ _ _ _ _ Hl Hbv).
    unfold entryValue in Hlook. rewrite Hov in Hlook.
    destruct bv as [sc | inner]; [discriminate |].
    simpl in Hab. rewrite Hab, Em in Hlook.
    apply alookup_None in Hlook. apply Hlook.
    rewrite (mapM_entry_keys _ _ _ _ Hl). eapply alookup_In. exact Hbv.
Qed.

Lemma arrayReplaceSanely_recurses_into_associative_witness :
  let base :=
    [(KStr "tutorial",
      VArr [(KStr "skip", VScalar (SBool false)); (KStr "width", VScalar (SInt 720))])] in
  let overlay := [(KStr "tutorial", VArr [(KStr "skip", VScalar (SBool true))])] in
  exists r m,
    arrayReplaceSanely (VArr base) (VArr overlay) = Some (VArr r)
    /\ arrayReplaceSanely
         (VArr [(KStr "skip", VScalar (SBool false));
                (KStr "width", VScalar (SInt 720))])
         (VArr [(KStr "skip", VScalar (SBool true))])
       = Some m
    /\ alookup (merged_key 0 base (KStr "tutorial")) r = Some m
    /\ (is_string (KStr "tutorial") = true \/ sequential 0 (array_keys base) = true ->
        alookup (KStr "tutorial") r = Some m).
Proof.
  intros base overlay.
  apply (arrayReplaceSanely_recurses_into_associative base overlay (KStr "tutorial"));
    reflexivity.
Defined.

(** C2 does not hold under an integer key that is not its position among
    the integer keys of the base: the merged entry is stored under the
    renumbered key. *)
Lemma recurses_integer_key_counterexample :
  let bv := VArr [(KStr "skip", VScalar (SBool false))] in
  let ov := VArr [(KStr "skip", VScalar (SBool true))] in
  let base := [(KStr "debug", VScalar (SBool false)); (KInt 3, bv)] in
  let overlay := [(KStr "debug", VScalar (SBool true)); (KInt 3, ov)] in
  alookup (KInt 3) base = Some bv
  /\ alookup (KInt 3) overlay = Some ov
  /\ is_assoc_array bv = true
  /\ is_assoc_array ov = true
  /\ arrayReplaceSanely bv ov = Some ov
  /\ arrayReplaceSanely (VArr base) (VArr overlay)
     = Some (VArr [(KStr "debug", VScalar (SBool true)); (KInt 0, ov)])
  /\ alookup (KInt 3) [(KStr "debug", VScalar (SBool true)); (KInt 0, ov)]
     <> arrayReplaceSanely bv ov.
Proof.
  repeat split; try reflexivity. discriminate.
Qed.

(** C3, with the renumbering of integer keys: the result lists the base's
    entries in the base's order, then the overlay-only entries in the overlay's order; no key
    occurs twice; a string key is in the result exactly when it is in one of
    the arrays; integer keys are renumbered 0, 1, 2, ... in that order, so
    that without integer keys the keys of the result are the base's keys
    followed by the overlay-only keys. *)
Theorem arrayReplaceSanely_key_order (base overlay : arr) :
  nodup_keys (array_keys base) = true ->
  nodup_keys (array_keys overlay) = true ->
  compatible (VArr base) (VArr overlay) = true ->
  let overlay_only :=
    filter (fun k => negb (mem_key k (array_keys base))) (array_keys overlay) in
  exists r,
    arrayReplaceSanely (VArr base) (VArr overlay) = Some (VArr r)
    /\ array_keys r
       = array_keys (renumber 0 (base ++ array_diff_key overlay base))
    /\ array_keys (base ++ array_diff_key overlay base)
       = array_keys base ++ overlay_only
    /\ NoDup (array_keys r)
    /\ (forall s, In (KStr s) (array_keys r) <->
                  In (KStr s) (array_keys base) \/ In (KStr s) (array_keys overlay))
    /\ (forallb is_string (array_keys base ++ array_keys overlay) = true ->
        array_keys r = array_keys base ++ overlay_only).
Proof.
  intros Hb Ho Hc overlay_only.
  apply nodup_keys_NoDup in Hb, Ho.
  destruct (arrayReplaceSanely_entries base overlay Hb Ho Hc) as [l [Hl Hr]].
  assert (Hkl := mapM_entry_keys _ _ _ _ Hl).
  assert (Hkeys : array_keys (l ++ array_diff_key overlay base)
                  = array_keys (base ++ array_diff_key overlay base)).
  { rewrite !array_keys_app. now rewrite Hkl. }
  assert (Hsplit : array_keys (base ++ array_diff_key overlay base)
                   = array_keys base ++ overlay_only).
  { rewrite array_keys_app, array_diff_key_keys. reflexivity. }
  eexists. split; [exact Hr |]. split; [| split; [| split; [| split]]].
  - now apply renumber_keys_ext.
  - exact Hsplit.
  - apply renumber_NoDup. rewrite array_keys_app.
    now apply NoDup_keys_with_diff.
  - intro s. rewrite in_keys_renumber_str, array_keys_app, in_app_iff, Hkl.
    rewrite array_diff_key_In.
    destruct (mem_key (KStr s) (array_keys base)) eqn:E.
    + apply mem_key_In in E. tauto.
    + assert (~ In (KStr s) (array_keys base)).
      { intro Hin. apply mem_key_In in Hin. congruence. }
      tauto.
  - intro Hstr. rewrite renumber_strings.
    + now rewrite Hkeys.
    + rewrite Hkeys, Hsplit, forallb_app. rewrite forallb_app in Hstr.
      apply andb_true_iff in Hstr. destruct Hstr as [H1 H2]. rewrite H1. simpl.
      unfold overlay_only. rewrite forallb_forall in *. intros k Hk.
      apply filter_In in Hk. now apply H2.
Qed.

Lemma arrayReplaceSanely_key_order_witness :
  exists r,
    arrayReplaceSanely (VArr sample_defaults) (VArr sample_site) = Some (VArr r)
    /\ array_keys r
       = array_keys (renumber 0 (sample_defaults ++ array_diff_key sample_site sample_defaults))
    /\ array_keys (sample_defaults ++ array_diff_key sample_site sample_defaults)
       = [KStr "debug"; KStr "tutorial"; KStr "fileExtensions"] ++ [KStr "altUploadForm"]
    /\ NoDup (array_keys r)
    /\ (forall s, In (KStr s) (array_keys r) <->
                  In (KStr s) (array_keys sample_defaults)
                  \/ In (KStr s) (array_keys sample_site))
    /\ (forallb is_string (array_keys sample_defaults ++ array_keys sample_site) = true ->
        array_keys r
        = [KStr "debug"; KStr "tutorial"; KStr "fileExtensions"] ++ [KStr "altUploadForm"]).
Proof.
  apply (arrayReplaceSanely_key_order sample_defaults sample_site); reflexivity.
Defined.

(** C3 does not hold as it is when an array has an integer key: the key is
    not a key of the result, and the keys of the result are not the base's keys
    followed by the overlay-only keys. *)
Lemma key_order_integer_key_counterexample :
  let base := [(KStr "debug", VScalar (SBool false)); (KInt 5, VScalar (SStr "x"))] in
  let overlay := [(KStr "lang", VScalar (SStr "en"))] in
  exists r,
    arrayReplaceSanely (VArr base) (VArr overlay) = Some (VArr r)
    /\ array_keys r = [KStr "debug"; KInt 0; KStr "lang"]
    /\ ~ In (KInt 5) (array_keys r)
    /\ array_keys r
       <> array_keys base
          ++ filter (fun k => negb (mem_key k (array_keys base))) (array_keys overlay).
Proof.
  eexists. split; [reflexivity |]. split; [reflexivity |]. split.
  - simpl. intros [H | [H | [H | []]]]; discriminate.
  - discriminate.
Qed.

End MergeResults.

(** * Licence groups *)

Import Js.

Section JsStrings.

Local Open Scope N_scope.

Lemma jsstring_eqb_eq (s t : jsstring) : jsstring_eqb s t = true <-> s = t.
Proof.
  revert t. induction s as [| c s IH]; intros [| d t]; simpl;
    try (split; [discriminate | discriminate]); [tauto |].
  rewrite andb_true_iff, N.eqb_eq, IH. split.
  - intros [-> ->]. reflexivity.
  - intro H. injection H as -> ->. tauto.
Qed.

Lemma jsstring_eqb_refl (s : jsstring) : jsstring_eqb s s = true.
Proof. now apply jsstring_eqb_eq. Qed.

Lemma jsstring_eqb_neq (s t : jsstring) : jsstring_eqb s t = false <-> s <> t.
Proof.
  split.
  - intros H E. apply jsstring_eqb_eq in E. congruence.
  - intro N. destruct (jsstring_eqb s t) eqn:E; [| reflexivity].
    apply jsstring_eqb_eq in E. contradiction.
Qed.

Lemma join_empty_separator (l : list jsstring) : join [] l = List.concat l.
Proof.
  induction l as [| x t IH]; [reflexivity |].
  destruct t as [| y t'].
  - simpl. now rewrite app_nil_r.
  - change (join [] (x :: y :: t')) with (x ++ [] ++ join [] (y :: t')).
    rewrite IH. reflexivity.
Qed.

Lemma join_separator (sep x : jsstring) (l : list jsstring) :
  join sep (x :: l) = x ++ List.concat (map (fun t => sep ++ t) l).
Proof.
  revert x. induction l as [| y t IH]; intro x.
  - simpl. now rewrite app_nil_r.
  - change (join sep (x :: y :: t)) with (x ++ sep ++ join sep (y :: t)).
    rewrite IH. simpl. now rewrite <- app_assoc.
Qed.

Lemma unshift_each (pre own : list jsstring) :
  fold_left (fun ts t => t :: ts) pre own = rev pre ++ own.
Proof.
  revert own. induction pre as [| t pre IH]; intro own; simpl.
  - reflexivity.
  - rewrite IH. now rewrite <- app_assoc.
Qed.

(** *** [trim] *)

Lemma trimStart_clean (s : jsstring) : startsClean (trimStart s) = true.
Proof.
  induction s as [| c t IH]; simpl; [reflexivity |].
  destruct (isWhiteSpace c) eqn:E; [exact IH |]. simpl. now rewrite E.
Qed.

Lemma trimStart_suffix (s : jsstring) : exists pre, s = pre ++ trimStart s.
Proof.
  induction s as [| c t [pre IH]]; simpl.
  - now exists [].
  - destruct (isWhiteSpace c).
    + exists (c :: pre). simpl. now rewrite <- IH.
    + now exists [].
Qed.

Lemma trimEnd_prefix (s : jsstring) : exists post, s = trimEnd s ++ post.
Proof.
  unfold trimEnd. destruct (trimStart_suffix (rev s)) as [pre H].
  exists (rev pre). rewrite <- rev_app_distr, <- H. now rewrite rev_involutive.
Qed.

Lemma trim_trimmed (s : jsstring) : trimmed (trim s) = true.
Proof.
  unfold trimmed, trim. apply andb_true_iff. split.
  - pose proof (trimStart_clean s) as Hc.
    destruct (trimEnd_prefix (trimStart s)) as [post H].
    destruct (trimEnd (trimStart s)) as [| c t]; [reflexivity |].
    rewrite H in Hc. exact Hc.
  - unfold trimEnd. rewrite rev_involutive. apply trimStart_clean.
Qed.

(** *** Objects *)

Lemma obj_get_set_same {V : Type} (name : jsstring) (v : V) (o : object V) :
  obj_get name (obj_set name v o) = Some v.
Proof.
  induction o as [| [n v'] t IH]; simpl.
  - now rewrite jsstring_eqb_refl.
  - destruct (jsstring_eqb name n) eqn:E; simpl; rewrite E; [reflexivity | exact IH].
Qed.

Lemma obj_get_set_other {V : Type} (name other : jsstring) (v : V) (o : object V) :
  name <> other -> obj_get name (obj_set other v o) = obj_get name o.
Proof.
  intro Hne. induction o as [| [n v'] t IH]; simpl.
  - apply jsstring_eqb_neq in Hne. now rewrite Hne.
  - destruct (jsstring_eqb other n) eqn:E; simpl.
    + apply jsstring_eqb_eq in E. subst.
      apply jsstring_eqb_neq in Hne. now rewrite Hne.
    + destruct (jsstring_eqb name n); [reflexivity | exact IH].
Qed.

Lemma obj_get_In {V : Type} (name : jsstring) (o : object V) (v : V) :
  obj_get name o = Some v -> In name (map fst o).
Proof.
  induction o as [| [n v'] t IH]; simpl; [discriminate |].
  destruct (jsstring_eqb name n) eqn:E.
  - apply jsstring_eqb_eq in E. intros _. now left.
  - intro H. right. now apply IH.
Qed.

Lemma obj_get_None {V : Type} (name : jsstring) (o : object V) :
  obj_get name o = None -> ~ In name (map fst o).
Proof.
  induction o as [| [n v'] t IH]; simpl; [tauto |].
  destruct (jsstring_eqb name n) eqn:E; [discriminate |].
  apply jsstring_eqb_neq in E. intros H [H1 | H1]; [congruence | now apply IH].
Qed.

Lemma obj_get_assignments {V : Type} (f : jsstring -> V) (names : list jsstring)
    (o : object V) (name : jsstring) :
  obj_get name (fold_left (fun result n => obj_set n (f n) result) names o)
  = if existsb (jsstring_eqb name) names then Some (f name) else obj_get name o.
Proof.
  revert o. induction names as [| n t IH]; intro o; simpl; [reflexivity |].
  rewrite IH. destruct (existsb (jsstring_eqb name) t).
  - now rewrite orb_true_r.
  - rewrite orb_false_r. destruct (jsstring_eqb name n) eqn:E.
    + apply jsstring_eqb_eq in E. subst. apply obj_get_set_same.
    + apply obj_get_set_other. now apply jsstring_eqb_neq.
Qed.

Lemma existsb_jsstring_In (name : jsstring) (names : list jsstring) :
  existsb (jsstring_eqb name) names = true <-> In name names.
Proof.
  rewrite existsb_exists. split.
  - intros [x [Hin E]]. apply jsstring_eqb_eq in E. now subst.
  - intro Hin. exists name. split; [assumption | apply jsstring_eqb_refl].
Qed.

(** *** [Object.keys] *)

Lemma insertIndex_In (e x : N * jsstring) (l : list (N * jsstring)) :
  In x (insertIndex e l) -> x = e \/ In x l.
Proof.
  induction l as [| h t IH]; simpl.
  - intros [<- | []]. now left.
  - destruct (fst e <=? fst h); simpl.
    + intros [<- | H]; [now left | now right].
    + intros [<- | H]; [right; now left |].
      destruct (IH H) as [-> | H']; [now left | right; now right].
Qed.

Lemma indexKeys_In (names : list jsstring) (x : N * jsstring) :
  In x (indexKeys names) -> In (snd x) names.
Proof.
  induction names as [| n t IH]; simpl; [tauto |].
  destruct (arrayIndex n) as [i |].
  - intro H. apply insertIndex_In in H. destruct H as [-> | H]; [now left | right; auto].
  - intro H. right. auto.
Qed.

Lemma Object_keys_In {V : Type} (o : object V) (name : jsstring) :
  In name (Object_keys o) -> In name (map fst o).
Proof.
  unfold Object_keys. rewrite in_app_iff, in_map_iff, filter_In.
  intros [[x [<- H]] | [H _]]; [now apply indexKeys_In | exact H].
Qed.

Lemma Object_keys_insertion_order {V : Type} (o : object V) :
  forallb (fun name => negb (isArrayIndex name)) (map fst o) = true ->
  Object_keys o = map fst o.
Proof.
  unfold Object_keys. intro H.
  assert (Hi : indexKeys (map fst o) = []).
  { induction (map fst o) as [| n t IH]; simpl in *; [reflexivity |].
    apply andb_true_iff in H. destruct H as [Hn Ht].
    unfold isArrayIndex in Hn. destruct (arrayIndex n); [discriminate | auto]. }
  rewrite Hi. simpl.
  induction (map fst o) as [| n t IH]; simpl in *; [reflexivity |].
  apply andb_true_iff in H. destruct H as [Hn Ht]. rewrite Hn. f_equal. apply IH; auto.
  clear -Ht. induction t as [| m t IH]; simpl in *; [reflexivity |].
  apply andb_true_iff in Ht. destruct Ht as [Hm Ht].
  unfold isArrayIndex in Hm. destruct (arrayIndex m); [discriminate | auto].
Qed.

End JsStrings.

Section LicenseWikiText.

Variable registry : jsstring -> option LicenseProps.

Lemma mapM_Forall2 {A B : Type} (f : A -> option B) (l : list A) (ys : list B) :
  mapM f l = Some ys -> Forall2 (fun x y => f x = Some y) l ys.
Proof.
  revert ys. induction l as [| x t IH]; simpl; intros ys H.
  - injection H as <-. constructor.
  - destruct (f x) as [y |] eqn:E; [| discriminate].
    destruct (mapM f t) as [ys' |]; [| discriminate].
    injection H as <-. constructor; auto.
Qed.

Lemma mapM_returns {A B : Type} (f : A -> option B) (l : list A) :
  (forall x, In x l -> exists y, f x = Some y) -> exists ys, mapM f l = Some ys.
Proof.
  induction l as [| x t IH]; simpl; intro H.
  - now exists [].
  - destruct (H x (or_introl eq_refl)) as [y ->].
    destruct IH as [ys ->]; [intros; apply H; now right |].
    now exists (y :: ys).
Qed.

Lemma findSelectedItems_In (w : LicenseGroup) (name : jsstring) :
  In name (findSelectedItems w) <-> In (name, true) (items w).
Proof.
  unfold findSelectedItems. rewrite in_map_iff. split.
  - intros [[n b] [<- H]]. apply filter_In in H. simpl in H.
    destruct H as [H ->]. exact H.
  - intro H. exists (name, true). split; [reflexivity |].
    apply filter_In. now split.
Qed.

(** Without a wrapper, each template is its own invocation, the prepended
    ones first and in the reverse of their order in [prependTemplates]. *)
Lemma getLicenceWikiText_separate (cfg : Config) (name : jsstring) (own : list jsstring) :
  template cfg = None ->
  getTemplates registry name = Some own ->
  getLicenceWikiText registry cfg name
  = Some (List.concat (map (fun t => str "{{" ++ t ++ str "}}") (prepended cfg own))).
Proof.
  intros Ht Hown. unfold getLicenceWikiText, prepended. rewrite Hown, Ht.
  rewrite join_empty_separator.
  destruct (prependTemplates cfg) as [pre |]; [| reflexivity].
  now rewrite unshift_each.
Qed.

(** C5: with a wrapper template the wikitext is one invocation: the wrapper,
    then each remaining template after a [|]. *)
Theorem getLicenceWikiText_wrapper
    (cfg : Config) (name wrapper : jsstring) (own : list jsstring) :
  template cfg = Some wrapper ->
  getTemplates registry name = Some own ->
  getLicenceWikiText registry cfg name
  = Some (str "{{"
          ++ wrapper ++ List.concat (map (fun t => str "|" ++ t) (prepended cfg own))
          ++ str "}}").
Proof.
  intros Ht Hown. unfold getLicenceWikiText, prepended. rewrite Hown, Ht.
  cbv zeta. rewrite join_separator. cbn [map join].
  rewrite <- !app_assoc.
  destruct (prependTemplates cfg) as [pre |]; [| reflexivity].
  now rewrite unshift_each.
Qed.

(** *** [getValue] *)

Lemma getValue_get (w : LicenseGroup) (name : jsstring) (v : selected_value) :
  obj_get name (getValue w) = Some v ->
  In (name, true) (items w) /\ v = customValue w name.
Proof.
  unfold getValue. destruct (type w).
  - unfold findSelectedItem.
    destruct (findSelectedItems w) as [| n t] eqn:E; simpl; [discriminate |].
    destruct (jsstring_eqb name n) eqn:En; [| discriminate].
    apply jsstring_eqb_eq in En. subst n. intro H. injection H as <-.
    split; [| reflexivity]. apply findSelectedItems_In. rewrite E. now left.
  - rewrite obj_get_assignments.
    destruct (existsb (jsstring_eqb name) (findSelectedItems w)) eqn:E;
      [| discriminate].
    intro H. injection H as <-. split; [| reflexivity].
    now apply findSelectedItems_In, existsb_jsstring_In.
Qed.

(** C10, with possibly empty text: the map holds an entry exactly for the
    selected licences (in a radio group, the selected one); the entry is [true] for a
    licence without a text input and otherwise the current text of its
    input, which may be empty. *)
Theorem getValue_entries (w : LicenseGroup) (name : jsstring) :
  (forall v, obj_get name (getValue w) = Some v ->
     In (name, true) (items w)
     /\ ((v = VTrue /\ obj_get name (customInputs w) = None)
         \/ exists text, obj_get name (customInputs w) = Some text /\ v = VString text))
  /\ (In (name, true) (items w) ->
      type w = checkbox \/ findSelectedItem w = Some name ->
      obj_get name (getValue w) = Some (customValue w name))
  /\ (~ In (name, true) (items w) -> obj_get name (getValue w) = None).
Proof.
  split; [| split].
  - intros v Hv. destruct (getValue_get w name v Hv) as [Hin ->].
    split; [exact Hin |]. unfold customValue.
    destruct (obj_get name (customInputs w)) as [text |];
      [right; now exists text | now left].
  - intros Hin Hsel. unfold getValue. destruct (type w) eqn:Et.
    + destruct Hsel as [Hc | Hs]; [discriminate |]. rewrite Hs. simpl.
      now rewrite jsstring_eqb_refl.
    + rewrite obj_get_assignments.
      apply findSelectedItems_In, existsb_jsstring_In in Hin. now rewrite Hin.
  - intro Hn. destruct (obj_get name (getValue w)) as [v |] eqn:E; [| reflexivity].
    destruct (getValue_get w name v E) as [Hin _]. contradiction.
Qed.

(** *** [getWikiText] *)

(** The options of a group are those its constructor built, selected or
    not; all of them are licences of the registry. *)
Lemma createOptions_known (w : LicenseGroup) :
  map fst (items w) = map fst (createOptions registry (config w)) ->
  optionsKnown registry w = true.
Proof.
  intro H. unfold optionsKnown. rewrite forallb_forall. intros [name b] Hin.
  assert (Hn : In name (map fst (items w))).
  { change name with (fst (name, b)). now apply in_map. }
  rewrite H in Hn. unfold createOptions in Hn. rewrite map_map in Hn. simpl in Hn.
  rewrite map_id in Hn. apply filter_In in Hn. now destruct Hn as [_ Hn].
Qed.

Lemma getValue_names_known (w : LicenseGroup) (name : jsstring) :
  optionsKnown registry w = true ->
  In name (Object_keys (getValue w)) ->
  exists props, registry name = Some props.
Proof.
  intros Hk Hin. apply Object_keys_In in Hin.
  destruct (obj_get name (getValue w)) as [v |] eqn:E.
  - apply getValue_get in E. destruct E as [Hsel _].
    unfold optionsKnown in Hk. rewrite forallb_forall in Hk.
    specialize (Hk _ Hsel). simpl in Hk.
    destruct (registry name) as [props |]; [now exists props | discriminate].
  - apply obj_get_None in E. contradiction.
Qed.

(** C6, in the order of [Object.keys]: [getWikiText] returns the trimmed
    concatenation of one block per selected licence, taken in the order of [Object.keys]; a block
    is the licence's wikitext, followed for a string value by a newline and
    the trimmed string; the result neither starts nor ends with white space;
    and when no selected name is an array index the order is the insertion
    order of the selection. *)
Theorem getWikiText_renders_selection (w : LicenseGroup) :
  optionsKnown registry w = true ->
  exists blocks,
    getWikiText registry w = Some (trim (List.concat blocks))
    /\ Forall2
         (fun name block =>
            exists markup,
              getLicenceWikiText registry (config w) name = Some markup
              /\ block
                 = markup
                   ++ match obj_get name (getValue w) with
                      | Some (VString text) => [10%N] ++ trim text
                      | _ => []
                      end)
         (Object_keys (getValue w)) blocks
    /\ trimmed (trim (List.concat blocks)) = true
    /\ (forallb (fun name => negb (isArrayIndex name)) (map fst (getValue w)) = true ->
        Object_keys (getValue w) = map fst (getValue w)
        /\ getWikiText registry w = renderSelection registry (config w) (getValue w)).
Proof.
  intro Hk.
  destruct (mapM_returns (licenceBlock registry (config w) (getValue w))
              (Object_keys (getValue w))) as [blocks Hb].
  { intros name Hin. destruct (getValue_names_known w name Hk Hin) as [props Hp].
    unfold licenceBlock, getLicenceWikiText, getTemplates. rewrite Hp.
    destruct (templates props);
      destruct (obj_get name (getValue w)) as [[| text] |]; eexists; reflexivity. }
  exists blocks. split; [| split; [| split]].
  - unfold getWikiText, wikiTextOf. rewrite Hb. now rewrite join_empty_separator.
  - apply mapM_Forall2 in Hb. revert Hb. apply Forall2_impl.
    intros name block. unfold licenceBlock.
    destruct (getLicenceWikiText registry (config w) name) as [markup |];
      [| discriminate].
    intro H. exists markup. split; [reflexivity |].
    destruct (obj_get name (getValue w)) as [[| text] |]; injection H as <-;
      [now rewrite app_nil_r | reflexivity | now rewrite app_nil_r].
  - apply trim_trimmed.
  - intro Hplain. apply Object_keys_insertion_order in Hplain. split; [exact Hplain |].
    unfold getWikiText, wikiTextOf, renderSelection. now rewrite Hplain.
Qed.

End LicenseWikiText.

Section LicenseExamples.

(** The wrapper example of the specification. *)
Lemma getLicenceWikiText_wrapper_witness :
  getLicenceWikiText sample_licenses (mkConfig [str "cc-by-sa"] (Some (str "self")) None) (str "cc-by-sa")
  = Some (str "{{self|cc-by-sa-4.0}}").
Proof.
  apply (getLicenceWikiText_wrapper sample_licenses
           (mkConfig [str "cc-by-sa"] (Some (str "self")) None) (str "cc-by-sa") (str "self")
           [str "cc-by-sa-4.0"]);
    reflexivity.
Defined.

(** C4: the entries of [prependTemplates] come before the licence's own
    templates, but each [unshift] puts its entry in front of the previous
    one: two entries come out in reverse order, against the comment on
    [config.prependTemplates]. A single entry is unaffected. *)
Theorem prependTemplates_come_out_reversed :
  getLicenceWikiText sample_licenses
    (mkConfig [str "fooLicense"] None (Some [str "pre"; str "pended"])) (str "fooLicense")
  = Some (str "{{pended}}{{pre}}{{fooLicense}}")
  /\ getLicenceWikiText sample_licenses
       (mkConfig [str "fooLicense"] None (Some [str "pre"; str "pended"])) (str "fooLicense")
     <> Some (str "{{pre}}{{pended}}{{fooLicense}}")
  /\ getLicenceWikiText sample_licenses
       (mkConfig [str "cc-by-sa"] None (Some [str "own-work"])) (str "cc-by-sa")
     = Some (str "{{own-work}}{{cc-by-sa-4.0}}").
Proof.
  repeat split. discriminate.
Qed.

Example getLicenceWikiText_no_wrapper :
  getLicenceWikiText sample_licenses (mkConfig [str "cc-by-sa"] None None) (str "cc-by-sa")
  = Some (str "{{cc-by-sa-4.0}}").
Proof. reflexivity. Qed.

(** A checkbox group with a plain licence and a licence with a text input. *)
Lemma getValue_entries_witness :
  let w := mkGroup (mkConfig [str "cc0"; str "cc-by-sa"; str "custom-license"] None None)
             checkbox
             [(str "cc0", true); (str "cc-by-sa", false); (str "custom-license", true)]
             [(str "custom-license", str "  my text  ")] in
  obj_get (str "cc0") (getValue w) = Some VTrue
  /\ obj_get (str "custom-license") (getValue w) = Some (VString (str "  my text  "))
  /\ obj_get (str "cc-by-sa") (getValue w) = None.
Proof.
  intro w. split; [| split].
  - apply (proj1 (proj2 (getValue_entries w (str "cc0")))).
    + simpl. tauto.
    + now left.
  - apply (proj1 (proj2 (getValue_entries w (str "custom-license")))).
    + simpl. tauto.
    + now left.
  - apply (proj2 (proj2 (getValue_entries w (str "cc-by-sa")))).
    simpl. intros [H | [H | [H | []]]]; discriminate.
Defined.

(** C10 does not hold for a selected licence whose text input is empty:
    its entry is the empty string. *)
Lemma getValue_empty_text_counterexample :
  let w := mkGroup (mkConfig [str "custom-license"] None None) checkbox
             [(str "custom-license", true)] [(str "custom-license", [])] in
  getValue w = [(str "custom-license", VString [])]
  /\ obj_get (str "custom-license") (getValue w) <> Some VTrue
  /\ ~ (exists text, text <> []
                     /\ obj_get (str "custom-license") (getValue w) = Some (VString text)).
Proof.
  split; [reflexivity |]. split; [discriminate |].
  intros [text [Hne H]]. simpl in H. injection H as <-. now apply Hne.
Qed.

Lemma getWikiText_renders_selection_witness :
  let w := mkGroup (mkConfig [str "cc0"; str "cc-by-sa"; str "custom-license"] None None)
             checkbox
             [(str "cc0", true); (str "cc-by-sa", false); (str "custom-license", true)]
             [(str "custom-license", str "  my text  ")] in
  exists blocks,
    getWikiText sample_licenses w = Some (trim (List.concat blocks))
    /\ Forall2
         (fun name block =>
            exists markup,
              getLicenceWikiText sample_licenses (config w) name = Some markup
              /\ block
                 = markup
                   ++ match obj_get name (getValue w) with
                      | Some (VString text) => [10%N] ++ trim text
                      | _ => []
                      end)
         (Object_keys (getValue w)) blocks
    /\ trimmed (trim (List.concat blocks)) = true
    /\ (forallb (fun name => negb (isArrayIndex name)) (map fst (getValue w)) = true ->
        Object_keys (getValue w) = map fst (getValue w)
        /\ getWikiText sample_licenses w
           = renderSelection sample_licenses (config w) (getValue w)).
Proof.
  intro w. apply (getWikiText_renders_selection sample_licenses w). reflexivity.
Defined.

(** The custom text example of the specification, in a group of two. *)
Example getWikiText_custom_text :
  getWikiText sample_licenses
    (mkGroup (mkConfig [str "cc0"; str "cc-by-sa"; str "custom-license"] None None)
       checkbox
       [(str "cc0", true); (str "cc-by-sa", false); (str "custom-license", true)]
       [(str "custom-license", str "  my text  ")])
  = Some (str "{{cc0}}{{custom-license}}" ++ [10%N] ++ str "my text").
Proof. reflexivity. Qed.

(** C6 does not hold when selected names are array indices: the blocks
    come in ascending numeric order, not in insertion order. *)
Lemma getWikiText_array_index_counterexample :
  let w := mkGroup (mkConfig [str "2"; str "1"] None None) checkbox
             [(str "2", true); (str "1", true)] [] in
  optionsKnown sample_licenses w = true
  /\ getValue w = [(str "2", VTrue); (str "1", VTrue)]
  /\ getWikiText sample_licenses w = Some (str "{{1}}{{2}}")
  /\ renderSelection sample_licenses (config w) (getValue w) = Some (str "{{2}}{{1}}")
  /\ getWikiText sample_licenses w
     <> renderSelection sample_licenses (config w) (getValue w).
Proof.
  repeat split. discriminate.
Qed.

End LicenseExamples.

(** * Further properties of the configuration code *)

Section MergeEdges.

Local Open Scope Z_scope.

Lemma alookup_In_entry (k : key) (a : arr) (v : value) :
  alookup k a = Some v -> In (k, v) a.
Proof.
  induction a as [| [k' v'] t IH]; simpl; [discriminate |].
  destruct (key_eqb k k') eqn:E.
  - apply key_eqb_eq in E. subst. intro H. injection H as ->. now left.
  - intro H. right. now apply IH.
Qed.

Lemma alookup_array_diff_key (k : key) (a1 a : arr) :
  alookup k (array_diff_key a1 a)
  = if array_key_exists k a then None else alookup k a1.
Proof.
  unfold array_diff_key. induction a1 as [| [k' v'] t IH]; simpl.
  - now destruct (array_key_exists k a).
  - destruct (array_key_exists k' a) eqn:Ek'; simpl.
    + rewrite IH. destruct (key_eqb k k') eqn:E; [| reflexivity].
      apply key_eqb_eq in E. subst. now rewrite Ek'.
    + destruct (key_eqb k k') eqn:E; [| exact IH].
      apply key_eqb_eq in E. subst. now rewrite Ek'.
Qed.

(** X1: [isAssoc] holds exactly of the arrays that have a string key; the
    empty array and the arrays with integer keys only are not associative. *)
Theorem isAssoc_iff_string_key (a : arr) :
  isAssoc a = true <-> exists s, In (KStr s) (array_keys a).
Proof.
  unfold isAssoc. induction a as [| [[i | s] v] t IH]; simpl.
  - split; [discriminate | intros [s []]].
  - rewrite IH. split; intros [s H]; exists s; [now right |].
    destruct H as [H | H]; [discriminate | exact H].
  - split; [intros _; exists s; now left | reflexivity].
Qed.

(** X2: [arrayReplaceSanely] raises exactly when an argument is not an
    array or when, under a key of the base that the overlay has too, the
    base holds an associative array and the recursive call raises. *)
Theorem arrayReplaceSanely_raises_iff (v v1 : value) :
  arrayReplaceSanely v v1 = None <-> compatible v v1 = false.
Proof.
  pose proof (arrayReplaceSanely_returns v v1) as H. split.
  - intro E. destruct (compatible v v1); [| reflexivity].
    destruct (proj1 H eq_refl) as [r Hr]. congruence.
  - intro E. destruct (arrayReplaceSanely v v1) as [r |] eqn:Er; [| reflexivity].
    destruct (arrayReplaceSanely_canonical v v1 r Er) as [c [-> _]].
    assert (Hc : compatible v v1 = true) by (apply H; now exists c).
    congruence.
Qed.

(** X3: an overlay that holds a scalar where the base holds an associative
    array makes the merge raise, under a string key or an integer key. *)
Theorem arrayReplaceSanely_scalar_over_associative
    (base overlay : arr) (k : key) (inner : arr) (sc : scalar) :
  alookup k base = Some (VArr inner) ->
  isAssoc inner = true ->
  alookup k overlay = Some (VScalar sc) ->
  arrayReplaceSanely (VArr base) (VArr overlay) = None.
Proof.
  intros Hb Ha Ho. rewrite arrayReplaceSanely_unfold.
  destruct (replaceLoop arrayReplaceSanely overlay base []) as [r |] eqn:E;
    [| reflexivity].
  exfalso.
  assert (Hr : exists r', replaceLoop arrayReplaceSanely overlay base [] = Some r')
    by now exists r.
  pose proof (proj1 (replaceLoop_returns arrayReplaceSanely overlay base []) Hr
                (k, VArr inner) (alookup_In_entry _ _ _ Hb)) as Hk.
  apply Hk. unfold entryValue. cbn [fst snd]. rewrite Ho, Ha. reflexivity.
Qed.

Lemma arrayReplaceSanely_scalar_over_associative_witness :
  arrayReplaceSanely (VArr sample_defaults)
    (VArr [(KStr "tutorial", VScalar (SBool false))])
  = None.
Proof.
  apply (arrayReplaceSanely_scalar_over_associative sample_defaults
           [(KStr "tutorial", VScalar (SBool false))] (KStr "tutorial")
           [(KStr "skip", VScalar (SBool false)); (KStr "width", VScalar (SInt 720))]
           (SBool false));
    reflexivity.
Defined.

(** X4: a string key that only one of the two arrays has keeps the value
    that array gives it. *)
Theorem arrayReplaceSanely_one_sided_keys (base overlay : arr) :
  nodup_keys (array_keys base) = true ->
  nodup_keys (array_keys overlay) = true ->
  compatible (VArr base) (VArr overlay) = true ->
  exists r,
    arrayReplaceSanely (VArr base) (VArr overlay) = Some (VArr r)
    /\ forall s,
         (alookup (KStr s) overlay = None ->
          alookup (KStr s) r = alookup (KStr s) base)
         /\ (alookup (KStr s) base = None ->
             alookup (KStr s) r = alookup (KStr s) overlay).
Proof.
  intros Hb Ho Hc. apply nodup_keys_NoDup in Hb, Ho.
  destruct (arrayReplaceSanely_entries base overlay Hb Ho Hc) as [l [Hl Hr]].
  eexists. split; [exact Hr |]. intro s.
  rewrite alookup_renumber_str, alookup_app, alookup_array_diff_key.
  assert (Hnone : alookup (KStr s) base = None -> alookup (KStr s) l = None).
  { intro Hn. apply alookup_None. rewrite (mapM_entry_keys _ _ _ _ Hl).
    now apply alookup_None. }
  split.
  - intro Hov. destruct (alookup (KStr s) base) as [v |] eqn:Ebase.
    + rewrite (mapM_entry_lookup _ _ _ _ _ _ Hl Ebase).
      unfold entryValue. now rewrite Hov.
    + rewrite (Hnone eq_refl), Hov. now destruct (array_key_exists (KStr s) base).
  - intro Hn. rewrite (Hnone Hn). unfold array_key_exists. now rewrite Hn.
Qed.

Lemma arrayReplaceSanely_one_sided_keys_witness :
  exists r,
    arrayReplaceSanely (VArr sample_defaults) (VArr sample_site) = Some (VArr r)
    /\ forall s,
         (alookup (KStr s) sample_site = None ->
          alookup (KStr s) r = alookup (KStr s) sample_defaults)
         /\ (alookup (KStr s) sample_defaults = None ->
             alookup (KStr s) r = alookup (KStr s) sample_site).
Proof.
  apply (arrayReplaceSanely_one_sided_keys sample_defaults sample_site); reflexivity.
Defined.

(** X5: whatever [arrayReplaceSanely] returns is an array, no key occurs in
    it twice, and its integer keys are 0, 1, 2, ... in order of appearance. *)
Theorem arrayReplaceSanely_result_keys (v v1 r : value) :
  arrayReplaceSanely v v1 = Some r ->
  exists c,
    r = VArr c /\ NoDup (array_keys c) /\ sequential 0 (array_keys c) = true.
Proof.
  intro H. destruct (arrayReplaceSanely_canonical v v1 r H) as [c [Hc [Hn Hs]]].
  now exists c.
Qed.

Lemma arrayReplaceSanely_result_keys_witness :
  exists c,
    VArr [(KStr "debug", VScalar (SBool false)); (KInt 0, VScalar (SStr "y"))] = VArr c
    /\ NoDup (array_keys c) /\ sequential 0 (array_keys c) = true.
Proof.
  apply (arrayReplaceSanely_result_keys
           (VArr [(KStr "debug", VScalar (SBool false)); (KInt 7, VScalar (SStr "x"))])
           (VArr [(KInt 7, VScalar (SStr "y"))])).
  reflexivity.
Defined.

Lemma forallb_wf_values (a b : arr) :
  map snd a = map snd b ->
  forallb (fun e => wf (snd e)) a = forallb (fun e => wf (snd e)) b.
Proof.
  revert b. induction a as [| [k v] t IH]; intros [| [k' v'] t'] H;
    simpl in H; try discriminate; [reflexivity |].
  injection H as -> Ht. simpl. f_equal. now apply IH.
Qed.

Lemma mapM_entry_wf (a1 a l : arr) :
  (forall e, In e a -> forall v1 r,
      wf (snd e) = true -> wf v1 = true ->
      arrayReplaceSanely (snd e) v1 = Some r -> wf r = true) ->
  (forall e, In e a -> wf (snd e) = true) ->
  (forall e, In e a1 -> wf (snd e) = true) ->
  mapM (entry arrayReplaceSanely a1) a = Some l ->
  forall e, In e l -> wf (snd e) = true.
Proof.
  intros IHv Ha Ha1. revert l.
  induction a as [| [k v] t IH]; simpl; intros l H e Hin.
  - injection H as <-. destruct Hin.
  - unfold entry in H at 1. cbn [fst snd] in H.
    destruct (entryValue arrayReplaceSanely a1 k v) as [w |] eqn:Ew; [| discriminate].
    destruct (mapM (entry arrayReplaceSanely a1) t) as [l' |] eqn:El; [| discriminate].
    injection H as <-. destruct Hin as [<- | Hin].
    + cbn [snd]. unfold entryValue in Ew.
      assert (Hv : wf v = true) by (apply (Ha (k, v)); now left).
      destruct (alookup k a1) as [value1 |] eqn:E1.
      * assert (H1 : wf value1 = true)
          by (apply (Ha1 (k, value1)); now apply alookup_In_entry).
        destruct v as [sc | inner]; [now injection Ew as <- |].
        destruct (isAssoc inner); [| now injection Ew as <-].
        apply (IHv (k, VArr inner) (or_introl eq_refl) value1 w Hv H1 Ew).
      * now injection Ew as <-.
    + apply (IH (fun e' He' => IHv e' (or_intror He'))
                (fun e' He' => Ha e' (or_intror He')) l' eq_refl e Hin).
Qed.

Lemma arrayReplaceSanely_wf (v : value) :
  forall v1 r,
    wf v = true -> wf v1 = true -> arrayReplaceSanely v v1 = Some r -> wf r = true.
Proof.
  induction v as [sc | a IH] using value_nested_ind; intros v1 r Hv Hv1 Hr;
    [discriminate |].
  destruct v1 as [sc1 | a1]; [discriminate |].
  apply wf_entries in Hv, Hv1. destruct Hv as [Hnd Hw], Hv1 as [Hnd1 Hw1].
  rewrite arrayReplaceSanely_arrays in Hr by assumption.
  destruct (mapM (entry arrayReplaceSanely a1) a) as [l |] eqn:El; [| discriminate].
  injection Hr as <-. cbn [wf]. apply andb_true_iff. split.
  - apply nodup_keys_NoDup, renumber_NoDup. rewrite array_keys_app.
    apply NoDup_keys_with_diff; try assumption.
    eapply mapM_entry_keys. exact El.
  - rewrite (forallb_wf_values _ (l ++ array_diff_key a1 a))
      by apply renumber_values.
    apply forallb_forall. intros e Hin. apply in_app_or in Hin.
    destruct Hin as [Hin | Hin].
    + exact (mapM_entry_wf a1 a l IH Hw Hw1 El e Hin).
    + apply Hw1. unfold array_diff_key in Hin. apply filter_In in Hin. tauto.
Qed.

(** X6: merging two arrays that hold every key once, at every depth, gives
    an array that does. *)
Theorem arrayReplaceSanely_keeps_keys_distinct (base overlay r : value) :
  wf base = true ->
  wf overlay = true ->
  arrayReplaceSanely base overlay = Some r ->
  wf r = true.
Proof.
  intros Hb Ho Hr. exact (arrayReplaceSanely_wf base overlay r Hb Ho Hr).
Qed.

Lemma arrayReplaceSanely_keeps_keys_distinct_witness :
  wf (VArr [(KStr "debug", VScalar (SBool false));
            (KStr "tutorial",
             VArr [(KStr "skip", VScalar (SBool true)); (KStr "width", VScalar (SInt 720))]);
            (KStr "fileExtensions", VArr [(KInt 0, VScalar (SStr "ogg"))]);
            (KStr "altUploadForm", VScalar (SStr "Special:Upload"))])
  = true.
Proof.
  apply (arrayReplaceSanely_keeps_keys_distinct
           (VArr sample_defaults) (VArr sample_site));
    reflexivity.
Defined.

(** X7: with an empty base the merge gives the overlay, its integer keys
    renumbered from 0. *)
Theorem arrayReplaceSanely_empty_base (overlay : arr) :
  nodup_keys (array_keys overlay) = true ->
  arrayReplaceSanely (VArr []) (VArr overlay) = Some (VArr (renumber 0 overlay)).
Proof.
  intro Ho. apply nodup_keys_NoDup in Ho.
  rewrite arrayReplaceSanely_arrays; [| constructor | assumption].
  simpl. do 3 f_equal. unfold array_diff_key.
  induction overlay as [| e t IH]; [reflexivity |].
  simpl. f_equal. apply IH. now apply NoDup_cons_iff in Ho.
Qed.

Lemma arrayReplaceSanely_empty_base_witness :
  arrayReplaceSanely (VArr []) (VArr sample_site) = Some (VArr (renumber 0 sample_site)).
Proof.
  apply (arrayReplaceSanely_empty_base sample_site). reflexivity.
Defined.

End MergeEdges.

Section ConfigReaders.

Local Open Scope Z_scope.

Variable getDefaultConfig : value.
Variable newFromName : string -> option Campaign.

Lemma mergeDefaults_sets_flag (st st1 : State) :
  mergeDefaults getDefaultConfig st = Some st1 ->
  mergedConfig st1 = true /\ urlConfig st1 = urlConfig st.
Proof.
  unfold mergeDefaults. destruct (mergedConfig st) eqn:E.
  - intro H. injection H as <-. now split.
  - destruct (arrayReplaceSanely getDefaultConfig (wgUploadWizardConfig st));
      [| discriminate].
    intro H. injection H as <-. now split.
Qed.

Lemma mergeDefaults_once (st : State) :
  mergedConfig st = true -> mergeDefaults getDefaultConfig st = Some st.
Proof. unfold mergeDefaults. now intros ->. Qed.

Lemma mergeCampaign_keeps (name : option string) (st1 st2 : State) :
  mergeCampaign newFromName name st1 = Some st2 ->
  mergedConfig st2 = mergedConfig st1 /\ urlConfig st2 = urlConfig st1.
Proof.
  unfold mergeCampaign. destruct name as [n |].
  - destruct (arrayReplaceSanely (wgUploadWizardConfig st1)
                (getCampaignConfig newFromName (Some n))); [| discriminate].
    intro H. injection H as <-. now split.
  - intro H. injection H as <-. now split.
Qed.

(** X8: a call of [getConfig] without a campaign changes nothing for the
    next one: the second call returns what the first returned, or raises as
    it did, and leaves the state the first left. *)
Theorem getConfig_without_campaign_idempotent (st : State) :
  getConfig getDefaultConfig newFromName None
    (snd (getConfig getDefaultConfig newFromName None st))
  = getConfig getDefaultConfig newFromName None st.
Proof.
  rewrite getConfig_state. unfold getConfig.
  destruct (mergeDefaults getDefaultConfig st) as [st1 |] eqn:E1.
  - cbn [mergeCampaign].
    destruct (mergeDefaults_sets_flag st st1 E1) as [Hflag _].
    rewrite (mergeDefaults_once st1 Hflag). reflexivity.
  - rewrite E1. reflexivity.
Qed.

(** X9: [getConfig] never changes the URL settings and never clears
    [$mergedConfig]; after a call that returns, [$mergedConfig] is set. *)
Theorem getConfig_keeps_url_settings (campaignName : option string) (st : State) :
  let st' := snd (getConfig getDefaultConfig newFromName campaignName st) in
  urlConfig st' = urlConfig st
  /\ (mergedConfig st = true -> mergedConfig st' = true)
  /\ (fst (getConfig getDefaultConfig newFromName campaignName st) <> TypeError ->
      mergedConfig st' = true).
Proof.
  cbv zeta. rewrite getConfig_state. unfold getConfig.
  destruct (mergeDefaults getDefaultConfig st) as [st1 |] eqn:E1.
  - destruct (mergeDefaults_sets_flag st st1 E1) as [Hflag Hurl].
    destruct (mergeCampaign newFromName campaignName st1) as [st2 |] eqn:E2.
    + destruct (mergeCampaign_keeps campaignName st1 st2 E2) as [Hf2 Hu2].
      repeat split; congruence.
    + repeat split; congruence.
  - repeat split; try tauto; simpl; congruence.
Qed.

(** *** Which settings a configuration has *)

Lemma In_keys_aset (k k' : key) (v : value) (a : arr) :
  In k (array_keys (aset k' v a)) <-> k = k' \/ In k (array_keys a).
Proof.
  rewrite keys_aset. destruct (mem_key k' (array_keys a)) eqn:E.
  - apply mem_key_In in E. split; [tauto | intros [-> | H]; assumption].
  - rewrite in_app_iff. simpl. intuition.
Qed.

Lemma replaceLoop_keys self a1 (a acc r : arr) (k : key) :
  replaceLoop self a1 a acc = Some r ->
  In k (array_keys acc) \/ In k (array_keys a) -> In k (array_keys r).
Proof.
  revert acc. induction a as [| [k' v] t IH]; intros acc Hr Hin.
  - simpl in Hr. injection Hr as <-. destruct Hin as [H | []]. exact H.
  - assert (Hstep : forall w, In k (array_keys (aset k' w acc)) \/ In k (array_keys t)).
    { intro w. rewrite In_keys_aset. simpl in Hin. intuition. }
    cbn [replaceLoop] in Hr.
    destruct (alookup k' a1) as [value1 |]; [| eapply IH; [exact Hr | apply Hstep]].
    destruct v as [sc | inner]; [eapply IH; [exact Hr | apply Hstep] |].
    destruct (isAssoc inner); [| eapply IH; [exact Hr | apply Hstep]].
    destruct (self (VArr inner) value1) as [merged |]; [| discriminate].
    eapply IH; [exact Hr | apply Hstep].
Qed.

Lemma merge_into_string_keys (src acc : arr) (n : Z) (s : string) :
  In (KStr s) (array_keys acc) \/ In (KStr s) (array_keys src) ->
  In (KStr s) (array_keys (fst (merge_into acc n src))).
Proof.
  revert acc n. induction src as [| [[i | s'] v] t IH]; intros acc n Hin.
  - simpl. destruct Hin as [H | []]. exact H.
  - simpl. apply IH. rewrite array_keys_app, in_app_iff. simpl in Hin.
    destruct Hin as [H | [H | H]]; [tauto | discriminate | tauto].
  - simpl. apply IH. rewrite In_keys_aset. simpl in Hin. intuition.
Qed.

Lemma array_merge_string_keys (a b : arr) (s : string) :
  In (KStr s) (array_keys a) \/ In (KStr s) (array_keys b) ->
  In (KStr s) (array_keys (array_merge a b)).
Proof.
  intro Hin. unfold array_merge.
  pose proof (merge_into_string_keys a [] 0 s) as Ha.
  destruct (merge_into [] 0 a) as [acc n]. simpl in Ha.
  apply merge_into_string_keys. destruct Hin as [H | H]; [left; apply Ha |]; tauto.
Qed.

Lemma arrayReplaceSanely_string_keys (a a1 : arr) (r : value) (s : string) :
  arrayReplaceSanely (VArr a) (VArr a1) = Some r ->
  In (KStr s) (array_keys a) \/ In (KStr s) (array_keys a1) ->
  exists c, r = VArr c /\ In (KStr s) (array_keys c).
Proof.
  rewrite arrayReplaceSanely_unfold.
  destruct (replaceLoop arrayReplaceSanely a1 a []) as [newArray |] eqn:E;
    [| discriminate].
  intros H Hin. injection H as <-. eexists. split; [reflexivity |].
  apply array_merge_string_keys.
  destruct (mem_key (KStr s) (array_keys a)) eqn:Em.
  - left. apply (replaceLoop_keys _ _ _ _ _ _ E). right. now apply mem_key_In.
  - destruct Hin as [H | H]; [apply mem_key_In in H; congruence |].
    right. apply array_diff_key_In. split; [exact H |].
    intro Hc. apply mem_key_In in Hc. congruence.
Qed.

Lemma array_replace_recursive_keys (src : arr) (dest : arr) (k : key) :
  In k (array_keys dest) \/ In k (array_keys src) ->
  In k (array_keys (array_replace_recursive dest src)).
Proof.
  unfold array_replace_recursive. cbn [array_replace_recursive_into].
  revert dest. induction src as [| [k' sv] t IH]; intros dest Hin.
  - simpl. destruct Hin as [H | []]. exact H.
  - cbn [fold_left fst snd]. apply IH.
    assert (Hstep : forall w, In k (array_keys (aset k' w dest)) \/ In k (array_keys t)).
    { intro w. rewrite In_keys_aset. simpl in Hin. intuition. }
    destruct sv as [sc | inner]; [apply Hstep |].
    destruct (alookup k' dest) as [[sc | de] |]; apply Hstep.
Qed.

(** X10: at the first merge of a process, every string key of the defaults
    and of the site configuration is a key of what [getConfig] returns, and
    so is every key of the URL settings, whatever campaign is layered on. *)
Theorem getConfig_has_every_setting
    (defaults site config : arr) (campaignName : option string) (st st' : State) :
  getDefaultConfig = VArr defaults ->
  wgUploadWizardConfig st = VArr site ->
  mergedConfig st = false ->
  getConfig getDefaultConfig newFromName campaignName st = (Returned (VArr config), st') ->
  (forall s, In (KStr s) (array_keys defaults) \/ In (KStr s) (array_keys site) ->
             In (KStr s) (array_keys config))
  /\ (forall k, In k (array_keys (urlConfig st)) -> In k (array_keys config)).
Proof.
  intros Hd Hs Hf. unfold getConfig, mergeDefaults. rewrite Hf, Hd, Hs.
  destruct (arrayReplaceSanely (VArr defaults) (VArr site)) as [merged |] eqn:E1;
    [| discriminate].
  assert (Hm : forall s, In (KStr s) (array_keys defaults) \/ In (KStr s) (array_keys site) ->
                 exists c, merged = VArr c /\ In (KStr s) (array_keys c)).
  { intros s Hin. exact (arrayReplaceSanely_string_keys _ _ _ _ E1 Hin). }
  destruct (mergeCampaign newFromName campaignName (mkState merged true (urlConfig st)))
    as [st2 |] eqn:E2; [| discriminate].
  assert (H2 : urlConfig st2 = urlConfig st
               /\ forall s, In (KStr s) (array_keys defaults) \/ In (KStr s) (array_keys site) ->
                    exists c, wgUploadWizardConfig st2 = VArr c /\ In (KStr s) (array_keys c)).
  { unfold mergeCampaign in E2. destruct campaignName as [n |].
    - cbn [wgUploadWizardConfig mergedConfig urlConfig] in E2.
      destruct (arrayReplaceSanely merged (getCampaignConfig newFromName (Some n)))
        as [merged2 |] eqn:E3; [| discriminate].
      injection E2 as <-. split; [reflexivity |]. intros s Hin. simpl.
      destruct (Hm s Hin) as [c [-> Hc]].
      destruct (getCampaignConfig newFromName (Some n)) as [sc | cc]; [discriminate |].
      apply (arrayReplaceSanely_string_keys _ _ _ _ E3). now left.
    - injection E2 as <-. split; [reflexivity |]. exact Hm. }
  destruct H2 as [Hurl H2].
  destruct (wgUploadWizardConfig st2) as [sc | c2] eqn:Ew; [discriminate |].
  intro H. injection H as <- <-. split.
  - intros s Hin. destruct (H2 s Hin) as [c [Hc Hk]]. injection Hc as <-.
    apply array_replace_recursive_keys. now left.
  - intros k Hk. apply array_replace_recursive_keys. right. now rewrite Hurl.
Qed.

End ConfigReaders.

Lemma getConfig_has_every_setting_witness :
  (forall s, In (KStr s) (array_keys sample_defaults) \/ In (KStr s) (array_keys sample_site) ->
             In (KStr s)
               (array_keys
                  [(KStr "debug", VScalar (SBool true));
                   (KStr "tutorial",
                    VArr [(KStr "skip", VScalar (SBool true));
                          (KStr "width", VScalar (SInt 720))]);
                   (KStr "fileExtensions", VArr [(KInt 0, VScalar (SStr "ogg"))]);
                   (KStr "altUploadForm", VScalar (SStr "Special:Upload"))]))
  /\ (forall k, In k (array_keys (urlConfig (mkState (VArr sample_site) false []))) ->
                In k
                  (array_keys
                     [(KStr "debug", VScalar (SBool true));
                      (KStr "tutorial",
                       VArr [(KStr "skip", VScalar (SBool true));
                             (KStr "width", VScalar (SInt 720))]);
                      (KStr "fileExtensions", VArr [(KInt 0, VScalar (SStr "ogg"))]);
                      (KStr "altUploadForm", VScalar (SStr "Special:Upload"))])).
Proof.
  apply (getConfig_has_every_setting (VArr sample_defaults) sample_campaigns
           sample_defaults sample_site _ (Some "wlm"%string)
           (mkState (VArr sample_site) false [])
           (snd (getConfig (VArr sample_defaults) sample_campaigns (Some "wlm"%string)
                   (mkState (VArr sample_site) false []))));
    reflexivity.
Defined.

Section UrlSettings.

Local Open Scope Z_scope.

Variable getDefaultConfig : value.
Variable newFromName : string -> option Campaign.

Lemma alookup_aset (k k' : key) (v : value) (a : arr) :
  alookup k (aset k' v a) = if key_eqb k k' then Some v else alookup k a.
Proof.
  induction a as [| [k0 v0] t IH]; simpl; [reflexivity |].
  destruct (key_eqb k' k0) eqn:E0; simpl.
  - apply key_eqb_eq in E0. subst k0. now destruct (key_eqb k k').
  - destruct (key_eqb k k0) eqn:E1.
    + destruct (key_eqb k k') eqn:E2; [| reflexivity].
      apply key_eqb_eq in E1, E2. subst. now rewrite key_eqb_refl in E0.
    + exact IH.
Qed.

Lemma aset_NoDup (k : key) (v : value) (a : arr) :
  NoDup (array_keys a) -> NoDup (array_keys (aset k v a)).
Proof.
  intro H. rewrite keys_aset. destruct (mem_key k (array_keys a)) eqn:E; [exact H |].
  apply NoDup_app; [exact H | constructor; [intros [] | constructor] |].
  intros x Hx [<- | []]. apply mem_key_In in Hx. congruence.
Qed.

(** What [array_replace_recursive] leaves under a key. *)
Lemma array_replace_recursive_lookup (src dest : arr) (k : key) :
  NoDup (array_keys src) ->
  alookup k (array_replace_recursive dest src)
  = match alookup k src with
    | Some sv =>
        Some (match sv, alookup k dest with
              | VArr s, Some (VArr de) => VArr (array_replace_recursive de s)
              | _, _ => sv
              end)
    | None => alookup k dest
    end.
Proof.
  unfold array_replace_recursive. cbn [array_replace_recursive_into].
  revert dest. induction src as [| [k' sv] t IH]; intros dest Hnd; [reflexivity |].
  apply NoDup_cons_iff in Hnd. destruct Hnd as [Hk' Hnd].
  cbn [fold_left fst snd alookup]. rewrite (IH _ Hnd).
  destruct (key_eqb k k') eqn:E.
  - apply key_eqb_eq in E. subst k'.
    assert (Hn : alookup k t = None) by now apply alookup_None.
    rewrite Hn.
    destruct sv as [sc | s]; [now rewrite alookup_aset, key_eqb_refl |].
    destruct (alookup k dest) as [[sc | de] |];
      now rewrite alookup_aset, key_eqb_refl.
  - assert (Hd : forall w, alookup k (aset k' w dest) = alookup k dest).
    { intro w. now rewrite alookup_aset, E. }
    destruct sv as [sc | s]; [now rewrite Hd |].
    destruct (alookup k' dest) as [[sc | de] |]; now rewrite Hd.
Qed.

(** X11: a URL setting with a scalar value wins: after
    [setUrlSetting( name, value )], [getSetting( name )] gives that value for
    every campaign, whenever [getConfig] returns. *)
Theorem url_setting_wins
    (name : key) (sc : scalar) (campaignName : option string) (st : State) :
  nodup_keys (array_keys (urlConfig st)) = true ->
  fst (getConfig getDefaultConfig newFromName campaignName
         (setUrlSetting name (VScalar sc) st)) <> TypeError ->
  fst (getSetting getDefaultConfig newFromName name campaignName
         (setUrlSetting name (VScalar sc) st))
  = Returned (VScalar sc).
Proof.
  intros Hnd Hret. apply nodup_keys_NoDup in Hnd.
  set (st0 := setUrlSetting name (VScalar sc) st) in *.
  unfold getSetting.
  assert (Hurl : urlConfig
                   (snd (getConfig getDefaultConfig newFromName campaignName st0))
                 = aset name (VScalar sc) (urlConfig st)).
  { rewrite getConfig_state.
    destruct (mergeDefaults getDefaultConfig st0) as [st1 |] eqn:E1; [| reflexivity].
    destruct (mergeDefaults_sets_flag _ st0 st1 E1) as [_ H1].
    destruct (mergeCampaign newFromName campaignName st1) as [st2 |] eqn:E2;
      [| exact H1].
    destruct (mergeCampaign_keeps _ campaignName st1 st2 E2) as [_ H2].
    rewrite H2, H1. reflexivity. }
  revert Hret Hurl. unfold getConfig.
  destruct (mergeDefaults getDefaultConfig st0) as [st1 |]; [| simpl; congruence].
  destruct (mergeCampaign newFromName campaignName st1) as [st2 |]; [| simpl; congruence].
  destruct (wgUploadWizardConfig st2) as [s | config]; [simpl; congruence |].
  cbn [fst snd]. intros _ Hurl.
  rewrite array_replace_recursive_lookup.
  - rewrite Hurl, alookup_aset, key_eqb_refl. reflexivity.
  - rewrite Hurl. now apply aset_NoDup.
Qed.

(** X12: [setUrlSetting] stores the value under the name, replacing what was
    there, keeps every other URL setting and touches nothing else. *)
Theorem setUrlSetting_lookup (name k : key) (v : value) (st : State) :
  alookup k (urlConfig (setUrlSetting name v st))
  = (if key_eqb k name then Some v else alookup k (urlConfig st))
  /\ (NoDup (array_keys (urlConfig st)) ->
      NoDup (array_keys (urlConfig (setUrlSetting name v st))))
  /\ wgUploadWizardConfig (setUrlSetting name v st) = wgUploadWizardConfig st
  /\ mergedConfig (setUrlSetting name v st) = mergedConfig st.
Proof.
  simpl. split; [apply alookup_aset |]. split; [apply aset_NoDup |]. now split.
Qed.

(** *** [getThirdPartyLicenses] *)

Lemma merge_into_integer_keys (src acc : arr) (n : Z) :
  integerKeys src = true ->
  map snd (fst (merge_into acc n src)) = map snd acc ++ map snd src
  /\ (integerKeys acc = true -> integerKeys (fst (merge_into acc n src)) = true).
Proof.
  unfold integerKeys.
  revert acc n. induction src as [| [[i | s] v] t IH]; intros acc n Hs.
  - simpl. now rewrite app_nil_r.
  - simpl in Hs. destruct (IH (acc ++ [(KInt n, v)]) (n + 1) Hs) as [Hv Hk].
    simpl. split.
    + rewrite Hv, map_app. simpl. now rewrite <- app_assoc.
    + intro Ha. apply Hk. rewrite array_keys_app, forallb_app, Ha. reflexivity.
  - discriminate.
Qed.

Lemma array_merge_integer_keys (a b : arr) :
  integerKeys a = true -> integerKeys b = true ->
  map snd (array_merge a b) = map snd a ++ map snd b
  /\ integerKeys (array_merge a b) = true.
Proof.
  intros Ha Hb. unfold array_merge.
  destruct (merge_into_integer_keys a [] 0 Ha) as [Hva Hka].
  destruct (merge_into [] 0 a) as [acc n]. simpl in *.
  destruct (merge_into_integer_keys b acc n Hb) as [Hvb Hkb].
  split; [now rewrite Hvb, Hva | now apply Hkb, Hka].
Qed.

Lemma collectLicenses_lists (groups licenses : arr) :
  licenseLists groups = true ->
  integerKeys licenses = true ->
  canonical licenses ->
  exists r,
    collectLicenses groups licenses = Some r
    /\ map snd r = map snd licenses ++ List.concat (map (fun g => licensesOf (snd g)) groups)
    /\ integerKeys r = true
    /\ canonical r.
Proof.
  revert licenses. induction groups as [| [k g] t IH]; intros licenses Hl Hi Hc.
  - exists licenses. simpl. now rewrite app_nil_r.
  - simpl in Hl. apply andb_true_iff in Hl. destruct Hl as [Hg Ht].
    cbn [collectLicenses map List.concat snd]. unfold licensesOf at 1.
    destruct (offsetGet g "licenses") as [[sc | l] |]; try discriminate.
    destruct (array_merge_integer_keys licenses l Hi Hg) as [Hv Hk].
    destruct (IH (array_merge licenses l) Ht Hk (array_merge_canonical licenses l))
      as [r [Hr [Hvr [Hkr Hcr]]]].
    exists r. split; [exact Hr |]. split; [| now split].
    now rewrite Hvr, Hv, <- app_assoc.
Qed.

(** X13: when the configuration lists the third-party licence groups and
    every group has a list of licences, [getThirdPartyLicenses] returns the
    licences of all groups in one list, group after group, duplicates
    included, under the keys 0, 1, 2, ... *)
Theorem getThirdPartyLicenses_concatenates
    (st st' : State) (config groups : arr) (licensing thirdParty : value) :
  getConfig getDefaultConfig newFromName None st = (Returned (VArr config), st') ->
  alookup (KStr "licensing") config = Some licensing ->
  offsetGet licensing "thirdParty" = Some thirdParty ->
  offsetGet thirdParty "licenseGroups" = Some (VArr groups) ->
  licenseLists groups = true ->
  exists licenses,
    getThirdPartyLicenses getDefaultConfig newFromName st
    = (Returned (VArr licenses), st')
    /\ map snd licenses = List.concat (map (fun g => licensesOf (snd g)) groups)
    /\ integerKeys licenses = true
    /\ sequential 0 (array_keys licenses) = true.
Proof.
  intros Hc Hl Ht Hg Hlists.
  unfold getThirdPartyLicenses, getSetting. rewrite Hc, Hl, Ht, Hg.
  destruct (collectLicenses_lists groups [] Hlists eq_refl)
    as [r [Hr [Hv [Hk [_ Hs]]]]].
  { split; [constructor | reflexivity]. }
  exists r. rewrite Hr. now repeat split.
Qed.

(** X14: a configuration without a ['licensing'] setting has no third-party
    licences: [getThirdPartyLicenses] returns the empty array and raises
    nothing. *)
Theorem getThirdPartyLicenses_without_licensing (st st' : State) (config : arr) :
  getConfig getDefaultConfig newFromName None st = (Returned (VArr config), st') ->
  alookup (KStr "licensing") config = None ->
  getThirdPartyLicenses getDefaultConfig newFromName st = (Returned (VArr []), st').
Proof.
  intros Hc Hl. unfold getThirdPartyLicenses, getSetting. now rewrite Hc, Hl.
Qed.

End UrlSettings.

Lemma url_setting_wins_witness :
  fst (getSetting (VArr sample_defaults) sample_campaigns (KStr "debug")
         (Some "wlm"%string)
         (setUrlSetting (KStr "debug") (VScalar (SStr "verbose"))
            (mkState (VArr sample_site) false [])))
  = Returned (VScalar (SStr "verbose")).
Proof.
  apply (url_setting_wins (VArr sample_defaults) sample_campaigns (KStr "debug")
           (SStr "verbose") (Some "wlm"%string) (mkState (VArr sample_site) false [])).
  - reflexivity.
  - simpl. discriminate.
Defined.

Lemma getThirdPartyLicenses_concatenates_witness :
  exists licenses,
    getThirdPartyLicenses (VArr sample_defaults) sample_campaigns
      (mkState (VArr sample_licensing) false [])
    = (Returned (VArr licenses),
       snd (getConfig (VArr sample_defaults) sample_campaigns None
              (mkState (VArr sample_licensing) false [])))
    /\ map snd licenses
       = [VScalar (SStr "cc-by-sa-4.0"); VScalar (SStr "cc-zero"); VScalar (SStr "pd-old")]
    /\ integerKeys licenses = true
    /\ sequential 0 (array_keys licenses) = true.
Proof.
  eapply (getThirdPartyLicenses_concatenates (VArr sample_defaults) sample_campaigns
            (mkState (VArr sample_licensing) false [])
            (snd (getConfig (VArr sample_defaults) sample_campaigns None
                    (mkState (VArr sample_licensing) false [])))
            _ sample_groups);
    reflexivity.
Defined.

Lemma getThirdPartyLicenses_without_licensing_witness :
  getThirdPartyLicenses (VArr sample_defaults) sample_campaigns
    (mkState (VArr sample_site) false [])
  = (Returned (VArr []),
     snd (getConfig (VArr sample_defaults) sample_campaigns None
            (mkState (VArr sample_site) false []))).
Proof.
  eapply (getThirdPartyLicenses_without_licensing (VArr sample_defaults)
            sample_campaigns (mkState (VArr sample_site) false [])); reflexivity.
Defined.

(** * Further properties of the licence group *)

Section LicenseEdges.

Local Open Scope N_scope.

Variable registry : jsstring -> option LicenseProps.

(** X16: without a wrapper template, the wikitext is one invocation per
    template: the entries of [prependTemplates] in reverse order, then the
    licence's own templates, or its name when it declares none. *)
Theorem getLicenceWikiText_without_wrapper
    (cfg : Config) (name : jsstring) (props : LicenseProps) :
  template cfg = None ->
  registry name = Some props ->
  getLicenceWikiText registry cfg name
  = Some (List.concat
            (map (fun t => str "{{" ++ t ++ str "}}")
               (match prependTemplates cfg with
                | Some pre => rev pre
                | None => []
                end
                ++ match templates props with
                   | Some own => own
                   | None => [name]
                   end))).
Proof.
  intros Ht Hp.
  rewrite (getLicenceWikiText_separate registry cfg name
             (match templates props with Some own => own | None => [name] end) Ht).
  - unfold prepended. now destruct (prependTemplates cfg).
  - unfold getTemplates. rewrite Hp. now destruct (templates props).
Qed.

(** X17: with no option selected the value is empty and the wikitext is the
    empty string; the registry is not consulted, so nothing is raised. *)
Theorem nothing_selected (w : LicenseGroup) :
  existsb snd (items w) = false ->
  getValue w = [] /\ getWikiText registry w = Some [].
Proof.
  intro H.
  assert (Hs : findSelectedItems w = []).
  { unfold findSelectedItems. induction (items w) as [| [n b] t IH]; [reflexivity |].
    simpl in H. apply orb_false_iff in H. destruct H as [-> Ht]. simpl. now apply IH. }
  assert (Hv : getValue w = []).
  { unfold getValue, findSelectedItem. rewrite Hs. now destruct (type w). }
  split; [exact Hv |]. unfold getWikiText. now rewrite Hv.
Qed.

(** *** [Object.keys] loses and repeats nothing *)

Lemma insertIndex_Permutation (e : N * jsstring) (l : list (N * jsstring)) :
  Permutation (insertIndex e l) (e :: l).
Proof.
  induction l as [| h t IH]; simpl; [reflexivity |].
  destruct (fst e <=? fst h); [reflexivity |].
  rewrite IH. apply perm_swap.
Qed.

Lemma indexKeys_Permutation (names : list jsstring) :
  Permutation (map snd (indexKeys names)) (filter isArrayIndex names).
Proof.
  induction names as [| n t IH]; simpl; [reflexivity |].
  unfold isArrayIndex at 1. destruct (arrayIndex n) as [i |]; [| exact IH].
  rewrite insertIndex_Permutation. simpl. now constructor.
Qed.

Lemma filter_split_Permutation {A : Type} (p : A -> bool) (l : list A) :
  Permutation (filter p l ++ filter (fun x => negb (p x)) l) l.
Proof.
  induction l as [| x t IH]; simpl; [reflexivity |].
  destruct (p x); simpl.
  - now constructor.
  - rewrite <- Permutation_middle. now constructor.
Qed.

Lemma Object_keys_Permutation {V : Type} (o : object V) :
  Permutation (Object_keys o) (map fst o).
Proof.
  unfold Object_keys. rewrite indexKeys_Permutation.
  apply filter_split_Permutation.
Qed.

(** X19: the language [createLabel] appends to a licence URL is the first
    language of the fallback chain that the licence is available in, and
    ['en'] when it is available in none of them. *)
Theorem targetLanguageCode_first_available (available chain : list jsstring) :
  (exists before after,
      chain = before ++ targetLanguageCode available chain :: after
      /\ In (targetLanguageCode available chain) available
      /\ forall code, In code before -> ~ In code available)
  \/ (targetLanguageCode available chain = str "en"
      /\ forall code, In code chain -> ~ In code available).
Proof.
  induction chain as [| code rest IH]; simpl.
  - right. split; [reflexivity | intros c []].
  - destruct (existsb (jsstring_eqb code) available) eqn:E.
    + left. exists [], rest. split; [reflexivity |]. split.
      * apply existsb_exists in E. destruct E as [x [Hx Ex]].
        apply jsstring_eqb_eq in Ex. now subst.
      * intros c [].
    + assert (Hcode : ~ In code available).
      { intro Hin. apply existsb_jsstring_In in Hin. congruence. }
      destruct IH as [[before [after [Hc [Hin Hb]]]] | [Hen Hnone]].
      * left. exists (code :: before), after. split; [simpl; now f_equal |].
        split; [exact Hin |]. intros c [<- | Hc']; [exact Hcode | now apply Hb].
      * right. split; [exact Hen |]. intros c [<- | Hc']; [exact Hcode | now apply Hnone].
Qed.

End LicenseEdges.

Lemma getLicenceWikiText_without_wrapper_witness :
  getLicenceWikiText sample_licenses
    (mkConfig [str "fooLicense"] None (Some [str "pre"; str "pended"])) (str "fooLicense")
  = Some (str "{{pended}}{{pre}}{{fooLicense}}").
Proof.
  apply (getLicenceWikiText_without_wrapper sample_licenses
           (mkConfig [str "fooLicense"] None (Some [str "pre"; str "pended"]))
           (str "fooLicense") (mkProps None));
    reflexivity.
Defined.

Lemma nothing_selected_witness :
  let w := mkGroup (mkConfig [str "cc0"; str "not-in-the-registry"] None None) checkbox
             [(str "cc0", false); (str "not-in-the-registry", false)] [] in
  getValue w = [] /\ getWikiText sample_licenses w = Some [].
Proof.
  intro w. apply (nothing_selected sample_licenses w). reflexivity.
Defined.

Section LicenseValues.

Local Open Scope N_scope.

Variable registry : jsstring -> option LicenseProps.

(** *** White space at the end *)

Lemma trimStart_white_prefix (ws s : jsstring) :
  forallb isWhiteSpace ws = true -> trimStart (ws ++ s) = trimStart s.
Proof.
  induction ws as [| c t IH]; simpl; [reflexivity |].
  intro H. apply andb_true_iff in H. destruct H as [-> Ht]. now apply IH.
Qed.

Lemma trimStart_all_white (s : jsstring) :
  trimStart s = [] <-> forallb isWhiteSpace s = true.
Proof.
  induction s as [| c t IH]; simpl; [tauto |].
  destruct (isWhiteSpace c); simpl; [exact IH |].
  split; discriminate.
Qed.

Lemma trimStart_app (s w : jsstring) :
  trimStart s <> [] -> trimStart (s ++ w) = trimStart s ++ w.
Proof.
  induction s as [| c t IH]; simpl; [congruence |].
  destruct (isWhiteSpace c); [exact IH | reflexivity].
Qed.

Lemma forallb_rev {A : Type} (p : A -> bool) (l : list A) :
  forallb p (rev l) = forallb p l.
Proof.
  induction l as [| x t IH]; [reflexivity |].
  simpl. rewrite forallb_app, IH. simpl. rewrite andb_true_r. apply andb_comm.
Qed.

Lemma trimEnd_white_suffix (s ws : jsstring) :
  forallb isWhiteSpace ws = true -> trimEnd (s ++ ws) = trimEnd s.
Proof.
  intro H. unfold trimEnd. rewrite rev_app_distr.
  rewrite trimStart_white_prefix; [reflexivity |]. now rewrite forallb_rev.
Qed.

Lemma trim_white_suffix (s ws : jsstring) :
  forallb isWhiteSpace ws = true -> trim (s ++ ws) = trim s.
Proof.
  intro H. unfold trim. destruct (trimStart s) as [| c t] eqn:E.
  - apply trimStart_all_white in E.
    assert (Ha : trimStart (s ++ ws) = []).
    { apply trimStart_all_white. now rewrite forallb_app, E, H. }
    now rewrite Ha.
  - rewrite trimStart_app by congruence. rewrite E. now apply trimEnd_white_suffix.
Qed.

Lemma trim_all_white (s : jsstring) :
  forallb isWhiteSpace s = true -> trim s = [].
Proof.
  intro H. unfold trim. apply trimStart_all_white in H. now rewrite H.
Qed.

(** X20: when the one selected licence has a text input that is empty or
    holds white space only, the wikitext is the licence's wikitext alone,
    trimmed: no newline is left behind. *)
Theorem getWikiText_blank_custom_text
    (w : LicenseGroup) (name text markup : jsstring) :
  findSelectedItems w = [name] ->
  obj_get name (customInputs w) = Some text ->
  forallb isWhiteSpace text = true ->
  getLicenceWikiText registry (config w) name = Some markup ->
  getValue w = [(name, VString text)]
  /\ getWikiText registry w = Some (trim markup).
Proof.
  intros Hsel Hin Hws Hm.
  assert (Hv : getValue w = [(name, VString text)]).
  { unfold getValue, findSelectedItem, customValue. rewrite Hsel. simpl.
    rewrite Hin. now destruct (type w). }
  split; [exact Hv |].
  unfold getWikiText, wikiTextOf. rewrite Hv.
  assert (Hk : Object_keys [(name, VString text)] = [name]).
  { apply Permutation_length_1_inv. symmetry.
    apply (Object_keys_Permutation [(name, VString text)]). }
  rewrite Hk. cbn [mapM]. unfold licenceBlock. rewrite Hm. cbn [obj_get].
  rewrite jsstring_eqb_refl. cbn [join].
  rewrite (trim_all_white text Hws), app_nil_r.
  f_equal. now apply trim_white_suffix.
Qed.

End LicenseValues.

(** *** The order of the entries *)

Section EntryOrder.

Local Open Scope N_scope.

Lemma distinct_NoDup (names : list jsstring) : distinct names = true <-> NoDup names.
Proof.
  induction names as [| n t IH]; simpl.
  - split; [constructor | reflexivity].
  - rewrite andb_true_iff, negb_true_iff, IH. split.
    + intros [Hn Ht]. constructor; [| exact Ht].
      intro Hin. apply existsb_jsstring_In in Hin. congruence.
    + intro H. apply NoDup_cons_iff in H. destruct H as [Hn Ht]. split; [| exact Ht].
      destruct (existsb (jsstring_eqb n) t) eqn:E; [| reflexivity].
      apply existsb_jsstring_In in E. contradiction.
Qed.

Lemma obj_set_fresh {V : Type} (name : jsstring) (v : V) (o : object V) :
  ~ In name (map fst o) -> obj_set name v o = o ++ [(name, v)].
Proof.
  induction o as [| [n v'] t IH]; simpl; intro H; [reflexivity |].
  destruct (jsstring_eqb name n) eqn:E.
  - apply jsstring_eqb_eq in E. subst. exfalso. tauto.
  - f_equal. apply IH. tauto.
Qed.

Lemma assignments_distinct {V : Type} (f : jsstring -> V) (names : list jsstring)
    (o : object V) :
  NoDup (map fst o ++ names) ->
  fold_left (fun result n => obj_set n (f n) result) names o
  = o ++ map (fun n => (n, f n)) names.
Proof.
  revert o. induction names as [| n t IH]; intros o Hnd; simpl.
  - now rewrite app_nil_r.
  - rewrite obj_set_fresh.
    + rewrite IH; [now rewrite <- app_assoc |].
      rewrite map_app. simpl. now rewrite <- app_assoc.
    + apply NoDup_remove_2 in Hnd. intro Hin. apply Hnd.
      apply in_or_app. now left.
Qed.

Lemma findSelectedItems_NoDup (w : LicenseGroup) :
  NoDup (map fst (items w)) -> NoDup (findSelectedItems w).
Proof.
  unfold findSelectedItems. induction (items w) as [| [n b] t IH]; simpl; intro H.
  - constructor.
  - apply NoDup_cons_iff in H. destruct H as [Hn Ht].
    destruct b; simpl; [| now apply IH].
    constructor; [| now apply IH].
    intro Hin. apply Hn. apply in_map_iff in Hin.
    destruct Hin as [[n' b'] [<- Hf]]. apply filter_In in Hf.
    apply in_map_iff. exists (n', b'). tauto.
Qed.

End EntryOrder.

Section CheckboxOrder.

Local Open Scope N_scope.

Variable registry : jsstring -> option LicenseProps.

(** X21: in a checkbox group whose options have distinct names, none of
    them an array index, and are licences of the registry, the value lists
    the selected licences in the order of the options, and [getWikiText]
    returns the trimmed concatenation of their blocks in that order: for
    each selected option, the licence's wikitext, followed by a newline and
    the trimmed text of its input where it has one. *)
Theorem getValue_checkbox_order (w : LicenseGroup) :
  type w = checkbox ->
  distinct (map fst (items w)) = true ->
  forallb (fun name => negb (isArrayIndex name)) (map fst (items w)) = true ->
  optionsKnown registry w = true ->
  getValue w = map (fun name => (name, customValue w name)) (findSelectedItems w)
  /\ exists blocks,
       Forall2
         (fun name block =>
            exists markup,
              getLicenceWikiText registry (config w) name = Some markup
              /\ block
                 = markup
                   ++ match customValue w name with
                      | VString text => [10] ++ trim text
                      | VTrue => []
                      end)
         (findSelectedItems w) blocks
       /\ getWikiText registry w = Some (trim (List.concat blocks)).
Proof.
  intros Ht Hd Hplain Hk. apply distinct_NoDup in Hd.
  assert (Hv : getValue w
               = map (fun name => (name, customValue w name)) (findSelectedItems w)).
  { unfold getValue. rewrite Ht. rewrite assignments_distinct; [reflexivity |].
    simpl. now apply findSelectedItems_NoDup. }
  split; [exact Hv |].
  assert (Hnames : map fst (getValue w) = findSelectedItems w).
  { rewrite Hv, map_map. simpl. apply map_id. }
  assert (Hkeys : Object_keys (getValue w) = findSelectedItems w).
  { rewrite Object_keys_insertion_order; [exact Hnames |].
    rewrite Hnames. rewrite forallb_forall in Hplain. apply forallb_forall.
    intros name Hin. apply Hplain.
    apply findSelectedItems_In in Hin. apply in_map_iff. now exists (name, true). }
  assert (Hget : forall name, In name (findSelectedItems w) ->
                   obj_get name (getValue w) = Some (customValue w name)).
  { intros name Hin. unfold getValue. rewrite Ht, obj_get_assignments.
    apply existsb_jsstring_In in Hin. now rewrite Hin. }
  destruct (mapM_returns (licenceBlock registry (config w) (getValue w))
              (findSelectedItems w)) as [blocks Hb].
  { intros name Hin. rewrite <- Hkeys in Hin.
    destruct (getValue_names_known registry w name Hk Hin) as [props Hp].
    unfold licenceBlock, getLicenceWikiText, getTemplates. rewrite Hp.
    destruct (templates props);
      destruct (obj_get name (getValue w)) as [[| text] |]; eexists; reflexivity. }
  exists blocks. split.
  - assert (Hf := mapM_Forall2 _ _ _ Hb).
    clear Hb. revert Hf Hget. generalize (findSelectedItems w) as names.
    intros names Hf. induction Hf as [| name block names' blocks' Hblock Hrest IH];
      intro Hget; constructor.
    + unfold licenceBlock in Hblock.
      destruct (getLicenceWikiText registry (config w) name) as [markup |];
        [| discriminate].
      exists markup. split; [reflexivity |].
      rewrite (Hget name (or_introl eq_refl)) in Hblock.
      destruct (customValue w name) as [| text]; injection Hblock as <-;
        [now rewrite app_nil_r | reflexivity].
    + apply IH. intros n Hn. apply Hget. now right.
  - unfold getWikiText, wikiTextOf. rewrite Hkeys, Hb.
    now rewrite join_empty_separator.
Qed.

End CheckboxOrder.

Lemma getWikiText_blank_custom_text_witness :
  let w := mkGroup (mkConfig [str "cc0"; str "custom-license"] None None) radio
             [(str "cc0", false); (str "custom-license", true)]
             [(str "custom-license", [32; 9]%N)] in
  getValue w = [(str "custom-license", VString [32; 9]%N)]
  /\ getWikiText sample_licenses w = Some (trim (str "{{custom-license}}")).
Proof.
  intro w.
  apply (getWikiText_blank_custom_text sample_licenses w (str "custom-license")
           [32; 9]%N (str "{{custom-license}}"));
    reflexivity.
Defined.

Lemma getValue_checkbox_order_witness :
  let w := mkGroup (mkConfig [str "cc0"; str "cc-by-sa"; str "custom-license"] None None)
             checkbox
             [(str "custom-license", true); (str "cc-by-sa", false); (str "cc0", true)]
             [(str "custom-license", str " my text ")] in
  getValue w
  = [(str "custom-license", VString (str " my text ")); (str "cc0", VTrue)]
  /\ exists blocks,
       Forall2
         (fun name block =>
            exists markup,
              getLicenceWikiText sample_licenses (config w) name = Some markup
              /\ block
                 = markup
                   ++ match customValue w name with
                      | VString text => [10%N] ++ trim text
                      | VTrue => []
                      end)
         [str "custom-license"; str "cc0"] blocks
       /\ getWikiText sample_licenses w = Some (trim (List.concat blocks)).
Proof.
  intro w. apply (getValue_checkbox_order sample_licenses w); reflexivity.
Defined.

(** ** [setValue] *)

Section SetValue.

Local Open Scope N_scope.

Lemma obj_set_keeps_inputs (name other value : jsstring) (inputs : object jsstring) :
  obj_get other inputs <> None ->
  (obj_get name (obj_set other value inputs) = None <-> obj_get name inputs = None).
Proof.
  intro Ho. destruct (jsstring_eqb name other) eqn:E.
  - apply jsstring_eqb_eq in E. subst. rewrite obj_get_set_same.
    split; [discriminate | intro H; contradiction].
  - apply jsstring_eqb_neq in E. now rewrite obj_get_set_other.
Qed.

Lemma setValueStep_inputs (values : object js_value)
    (acc : object jsstring * list jsstring) (m name : jsstring) :
  obj_get name (fst (setValueStep values acc m)) = None <-> obj_get name (fst acc) = None.
Proof.
  unfold setValueStep.
  destruct (obj_get m values) as [[[| value] |] |]; try tauto.
  destruct (obj_get m (fst acc)) eqn:E; [| tauto].
  cbn [fst]. apply obj_set_keeps_inputs. congruence.
Qed.

Lemma selects_ext (values : object js_value) (inputs inputs' : object jsstring) :
  (forall name, obj_get name inputs' = None <-> obj_get name inputs = None) ->
  forall name, selects values inputs' name = selects values inputs name.
Proof.
  intros H name. unfold selects.
  destruct (obj_get name values) as [[[| value] |] |]; try reflexivity.
  specialize (H name).
  destruct (obj_get name inputs'), (obj_get name inputs); try reflexivity.
  - destruct H as [_ H]. discriminate (H eq_refl).
  - destruct H as [H _]. discriminate (H eq_refl).
Qed.

Lemma setValueStep_selectArray (values : object js_value)
    (acc : object jsstring * list jsstring) (m : jsstring) :
  snd (setValueStep values acc m)
  = snd acc ++ (if selects values (fst acc) m then [m] else []).
Proof.
  unfold setValueStep, selects.
  destruct (obj_get m values) as [[[| value] |] |];
    try (now rewrite app_nil_r); [reflexivity |].
  destruct (obj_get m (fst acc)); [reflexivity | now rewrite app_nil_r].
Qed.

Lemma setValue_selectArray (values : object js_value) (names : list jsstring)
    (acc : object jsstring * list jsstring) :
  snd (fold_left (setValueStep values) names acc)
  = snd acc ++ filter (selects values (fst acc)) names.
Proof.
  revert acc. induction names as [| m t IH]; intro acc; simpl.
  - now rewrite app_nil_r.
  - rewrite IH, setValueStep_selectArray, <- app_assoc. f_equal.
    rewrite (filter_ext _ _ (selects_ext values (fst acc) _
                               (setValueStep_inputs values acc m))).
    now destruct (selects values (fst acc) m).
Qed.

Lemma setValueStep_text (values : object js_value)
    (acc : object jsstring * list jsstring) (m name : jsstring) :
  obj_get name (fst (setValueStep values acc m))
  = if jsstring_eqb name m then
      match obj_get name values, obj_get name (fst acc) with
      | Some (JSelected (VString text)), Some _ => Some (inputText text)
      | _, old => old
      end
    else obj_get name (fst acc).
Proof.
  unfold setValueStep. destruct (jsstring_eqb name m) eqn:E.
  - apply jsstring_eqb_eq in E. subst m.
    destruct (obj_get name values) as [[[| value] |] |]; try reflexivity;
      try (now destruct (obj_get name (fst acc))).
    destruct (obj_get name (fst acc)) eqn:Ei; [| now rewrite Ei].
    cbn [fst]. apply obj_get_set_same.
  - apply jsstring_eqb_neq in E.
    destruct (obj_get m values) as [[[| value] |] |]; try reflexivity.
    destruct (obj_get m (fst acc)); [| reflexivity].
    cbn [fst]. now apply obj_get_set_other.
Qed.

Lemma setValue_text (values : object js_value) (names : list jsstring)
    (acc : object jsstring * list jsstring) (name : jsstring) :
  obj_get name (fst (fold_left (setValueStep values) names acc))
  = if existsb (jsstring_eqb name) names then
      match obj_get name values, obj_get name (fst acc) with
      | Some (JSelected (VString text)), Some _ => Some (inputText text)
      | _, old => old
      end
    else obj_get name (fst acc).
Proof.
  revert acc. induction names as [| m t IH]; intro acc; simpl; [reflexivity |].
  rewrite IH.
  assert (Hstep := setValueStep_text values acc m name).
  assert (Hnone := setValueStep_inputs values acc m name).
  destruct (jsstring_eqb name m) eqn:E; simpl.
  - destruct (existsb (jsstring_eqb name) t).
    + destruct (obj_get name values) as [[[| text] |] |]; try exact Hstep.
      destruct (obj_get name (fst acc)) eqn:Ea.
      * now rewrite Hstep.
      * rewrite (proj2 Hnone eq_refl). reflexivity.
    + exact Hstep.
  - destruct (existsb (jsstring_eqb name) t); [| exact Hstep].
    now rewrite Hstep.
Qed.

Lemma Object_keys_has {V : Type} (o : object V) (name : jsstring) (v : V) :
  obj_get name o = Some v -> existsb (jsstring_eqb name) (Object_keys o) = true.
Proof.
  intro H. apply existsb_jsstring_In.
  apply (Permutation_in name (Permutation_sym (Object_keys_Permutation o))).
  eapply obj_get_In. exact H.
Qed.

(** X22: after [setValue( values )], the text input of a licence holds the
    string [values] gives the licence, without its line breaks; the other
    inputs hold what they held, and no input is made or removed. *)
Theorem setValue_custom_inputs (values : object js_value) (w : LicenseGroup)
    (name : jsstring) :
  obj_get name (customInputs (setValue values w))
  = match obj_get name values, obj_get name (customInputs w) with
    | Some (JSelected (VString text)), Some _ => Some (inputText text)
    | _, old => old
    end.
Proof.
  unfold setValue. cbn [customInputs]. rewrite setValue_text. cbn [fst].
  destruct (obj_get name values) as [v |] eqn:E.
  - now rewrite (Object_keys_has values name v E).
  - now destruct (existsb (jsstring_eqb name) (Object_keys values)).
Qed.

Lemma existsb_filter_jsstring (p : jsstring -> bool) (names : list jsstring)
    (name : jsstring) :
  existsb (jsstring_eqb name) (filter p names)
  = p name && existsb (jsstring_eqb name) names.
Proof.
  induction names as [| m t IH]; simpl; [now rewrite andb_false_r |].
  destruct (jsstring_eqb name m) eqn:E.
  - apply jsstring_eqb_eq in E. subst m. destruct (p name); simpl.
    + now rewrite jsstring_eqb_refl.
    + exact IH.
  - destruct (p m); simpl; [rewrite E |]; exact IH.
Qed.

Lemma setValue_selected_names (values : object js_value) (inputs : object jsstring)
    (name : jsstring) :
  existsb (jsstring_eqb name)
    (snd (fold_left (setValueStep values) (Object_keys values) (inputs, [])))
  = selects values inputs name.
Proof.
  rewrite setValue_selectArray. cbn [fst snd app].
  rewrite existsb_filter_jsstring.
  destruct (selects values inputs name) eqn:E; [| reflexivity].
  unfold selects in E. destruct (obj_get name values) as [v |] eqn:Ev; [| discriminate].
  now rewrite (Object_keys_has values name v Ev).
Qed.

(** X23: in a checkbox group whose options have distinct names,
    [setValue( values )] leaves an option selected exactly when [values]
    gives its licence [true], or a string and the licence has a text input;
    a string for a licence without a text input selects nothing. *)
Theorem setValue_checkbox_selection (values : object js_value) (w : LicenseGroup) :
  type w = checkbox ->
  distinct (map fst (items w)) = true ->
  items (setValue values w)
  = map (fun item => (fst item, selects values (customInputs w) (fst item))) (items w).
Proof.
  intros Ht Hd. apply distinct_NoDup in Hd.
  unfold setValue. cbn [items]. rewrite Ht. unfold selectItemsByData.
  apply map_ext. intros [n b]. cbn [fst]. f_equal.
  apply setValue_selected_names.
Qed.

Lemma selectFirst_names (data : jsstring) (options : list (jsstring * bool)) :
  map fst (selectFirst data options) = map fst options.
Proof.
  induction options as [| [n b] t IH]; simpl; [reflexivity |].
  destruct (jsstring_eqb data n); simpl; f_equal; [| exact IH].
  rewrite map_map. reflexivity.
Qed.

Lemma none_selected (options : list (jsstring * bool)) :
  filter snd (map (fun item => (fst item, false)) options) = [].
Proof. induction options as [| [n b] t IH]; simpl; [reflexivity | exact IH]. Qed.

Lemma selectFirst_selected (data : jsstring) (options : list (jsstring * bool)) :
  filter snd (selectFirst data options) = []
  \/ filter snd (selectFirst data options) = [(data, true)].
Proof.
  induction options as [| [n b] t IH]; simpl; [now left |].
  destruct (jsstring_eqb data n) eqn:E; simpl; [| exact IH].
  apply jsstring_eqb_eq in E. subst n. right. now rewrite none_selected.
Qed.

(** X24: in a radio group [setValue( values )] keeps the options and leaves
    at most one selected: an option whose licence [values] gives [true], or
    a string if the licence has a text input. *)
Theorem setValue_radio_selection (values : object js_value) (w : LicenseGroup) :
  type w = radio ->
  map fst (items (setValue values w)) = map fst (items w)
  /\ singleSelection (items (setValue values w)) = true
  /\ forall name, In (name, true) (items (setValue values w)) ->
                  selects values (customInputs w) name = true.
Proof.
  intro Ht. unfold setValue. cbn [items]. rewrite Ht.
  set (selectArray := snd (fold_left (setValueStep values) (Object_keys values)
                             (customInputs w, []))).
  assert (Hsel : forall d, hd_error selectArray = Some d ->
                           selects values (customInputs w) d = true).
  { intros d Hd. rewrite <- setValue_selected_names. fold selectArray.
    apply existsb_jsstring_In. destruct selectArray as [| x t]; [discriminate |].
    injection Hd as ->. now left. }
  destruct (hd_error selectArray) as [d |]; cbn [selectItemByData].
  - split; [apply selectFirst_names |]. unfold singleSelection.
    destruct (selectFirst_selected d (items w)) as [Hs | Hs].
    + rewrite Hs. split; [reflexivity |]. intros name Hin.
      assert (Hf : In (name, true) (filter snd (selectFirst d (items w))))
        by (apply filter_In; now split).
      rewrite Hs in Hf. destruct Hf.
    + rewrite Hs. split; [reflexivity |]. intros name Hin.
      assert (Hf : In (name, true) (filter snd (selectFirst d (items w))))
        by (apply filter_In; now split).
      rewrite Hs in Hf. destruct Hf as [Hf | []]. injection Hf as <-.
      now apply Hsel.
  - split; [now rewrite map_map, map_ext with (g := fst) |].
    unfold singleSelection. rewrite none_selected. split; [reflexivity |].
    intros name Hin.
    assert (Hf : In (name, true)
                   (filter snd (map (fun item => (fst item, false)) (items w))))
      by (apply filter_In; now split).
    rewrite none_selected in Hf. destruct Hf.
Qed.

End SetValue.

Lemma setValue_checkbox_selection_witness :
  let w := mkGroup (mkConfig [str "cc0"; str "cc-by-sa"; str "custom-license"] None None)
             checkbox
             [(str "cc0", true); (str "cc-by-sa", false); (str "custom-license", false)]
             [(str "custom-license", [])] in
  let values := [(str "custom-license", JSelected (VString (str "my text")));
                 (str "cc-by-sa", JSelected (VString (str "ignored")));
                 (str "cc0", JOther)] in
  items (setValue values w)
  = [(str "cc0", false); (str "cc-by-sa", false); (str "custom-license", true)].
Proof.
  intros w values. apply (setValue_checkbox_selection values w); reflexivity.
Defined.

Lemma setValue_radio_selection_witness :
  let w := mkGroup (mkConfig [str "cc0"; str "cc-by-sa"] None None) radio
             [(str "cc0", true); (str "cc-by-sa", false)] [] in
  let values := [(str "cc-by-sa", JSelected VTrue)] in
  map fst (items (setValue values w)) = [str "cc0"; str "cc-by-sa"]
  /\ singleSelection (items (setValue values w)) = true
  /\ forall name, In (name, true) (items (setValue values w)) ->
                  selects values (customInputs w) name = true.
Proof.
  intros w values. apply (setValue_radio_selection values w). reflexivity.
Defined.

(** ** [setValue] after [getValue] *)

Section RoundTrip.

Local Open Scope N_scope.

Lemma obj_get_asValues (selection : object selected_value) (name : jsstring) :
  obj_get name (asValues selection)
  = match obj_get name selection with
    | Some v => Some (JSelected v)
    | None => None
    end.
Proof.
  induction selection as [| [n v] t IH]; simpl; [reflexivity |].
  destruct (jsstring_eqb name n); [reflexivity | exact IH].
Qed.

Lemma Object_keys_asValues (selection : object selected_value) :
  Object_keys (asValues selection) = Object_keys selection.
Proof.
  unfold Object_keys, asValues. rewrite map_map. reflexivity.
Qed.

Lemma inputText_singleLine (s : jsstring) : singleLine s = true -> inputText s = s.
Proof.
  unfold singleLine, inputText. induction s as [| c t IH]; simpl; [reflexivity |].
  intro H. apply andb_true_iff in H. destruct H as [-> Ht]. f_equal. now apply IH.
Qed.

Lemma obj_set_same_value {V : Type} (name : jsstring) (v : V) (o : object V) :
  obj_get name o = Some v -> obj_set name v o = o.
Proof.
  induction o as [| [n v'] t IH]; simpl; [discriminate |].
  destruct (jsstring_eqb name n) eqn:E.
  - intro H. injection H as ->. reflexivity.
  - intro H. f_equal. now apply IH.
Qed.

Lemma obj_get_In_entry {V : Type} (name : jsstring) (v : V) (o : object V) :
  obj_get name o = Some v -> In (name, v) o.
Proof.
  induction o as [| [n v'] t IH]; simpl; [discriminate |].
  destruct (jsstring_eqb name n) eqn:E.
  - apply jsstring_eqb_eq in E. subst. intro H. injection H as ->. now left.
  - intro H. right. now apply IH.
Qed.

Lemma setValue_keeps_inputs (values : object js_value) (inputs : object jsstring)
    (names : list jsstring) (selectArray : list jsstring) :
  (forall name text old,
      obj_get name values = Some (JSelected (VString text)) ->
      obj_get name inputs = Some old -> inputText text = old) ->
  fst (fold_left (setValueStep values) names (inputs, selectArray)) = inputs.
Proof.
  intro Hsame. revert selectArray.
  induction names as [| m t IH]; intro selectArray; [reflexivity |].
  simpl.
  assert (Hstep : exists selectArray',
             setValueStep values (inputs, selectArray) m = (inputs, selectArray')).
  { unfold setValueStep. cbn [fst snd].
    destruct (obj_get m values) as [[[| text] |] |] eqn:Ev;
      try (eexists; reflexivity).
    destruct (obj_get m inputs) as [old |] eqn:Ei; [| eexists; reflexivity].
    rewrite (Hsame m text old Ev Ei), (obj_set_same_value m old inputs Ei).
    eexists. reflexivity. }
  destruct Hstep as [selectArray' ->]. apply IH.
Qed.

Lemma selected_value_by_name (options : list (jsstring * bool)) (name : jsstring)
    (b b' : bool) :
  NoDup (map fst options) -> In (name, b) options -> In (name, b') options -> b = b'.
Proof.
  induction options as [| [n c] t IH]; simpl; intros Hnd H1 H2; [destruct H1 |].
  apply NoDup_cons_iff in Hnd. destruct Hnd as [Hn Ht].
  assert (Hin : forall x, In (name, x) t -> In name (map fst t)).
  { intros x Hx. apply in_map_iff. now exists (name, x). }
  destruct H1 as [E1 | H1], H2 as [E2 | H2].
  - congruence.
  - injection E1 as -> _. exfalso. apply Hn. eapply Hin. exact H2.
  - injection E2 as -> _. exfalso. apply Hn. eapply Hin. exact H1.
  - now apply IH.
Qed.

Lemma map_same {A : Type} (f : A -> A) (l : list A) :
  (forall x, In x l -> f x = x) -> map f l = l.
Proof.
  induction l as [| x t IH]; simpl; intro H; [reflexivity |].
  rewrite H by now left. f_equal. apply IH. intros y Hy. apply H. now right.
Qed.

Lemma selectFirst_the_selected (name : jsstring) (options : list (jsstring * bool)) :
  NoDup (map fst options) ->
  map fst (filter snd options) = [name] ->
  selectFirst name options = options.
Proof.
  induction options as [| [n b] t IH]; simpl; intros Hnd Hsel; [discriminate |].
  apply NoDup_cons_iff in Hnd. destruct Hnd as [Hn Ht].
  destruct (jsstring_eqb name n) eqn:E.
  - apply jsstring_eqb_eq in E. subst n. destruct b; simpl in Hsel.
    + injection Hsel as Hrest. f_equal. apply map_same. intros [m c] Hin.
      destruct c; [| reflexivity]. exfalso.
      assert (Hm : In m (map fst (filter snd t))).
      { apply in_map_iff. exists (m, true). split; [reflexivity |].
        apply filter_In. now split. }
      rewrite Hrest in Hm. destruct Hm.
    + exfalso. apply Hn.
      assert (Hm : In name (map fst (filter snd t))) by (rewrite Hsel; now left).
      apply in_map_iff in Hm. destruct Hm as [[m c] [<- Hf]].
      apply filter_In in Hf. apply in_map_iff. exists (m, c). tauto.
  - destruct b; simpl in Hsel.
    + injection Hsel as -> _. now rewrite jsstring_eqb_refl in E.
    + f_equal. now apply IH.
Qed.

Lemma selects_own_value (w : LicenseGroup) (name : jsstring) :
  selects (asValues (getValue w)) (customInputs w) name
  = match obj_get name (getValue w) with Some _ => true | None => false end.
Proof.
  unfold selects. rewrite obj_get_asValues.
  destruct (obj_get name (getValue w)) as [v |] eqn:E; [| reflexivity].
  apply getValue_get in E. destruct E as [_ ->]. unfold customValue.
  now destruct (obj_get name (customInputs w)).
Qed.

(** X25: giving a group its own value back changes nothing: when the
    options have distinct names, the text inputs hold no line breaks and a
    radio group has at most one option selected, [setValue( getValue() )]
    leaves every option and every text input as it was. *)
Theorem setValue_getValue (w : LicenseGroup) :
  distinct (map fst (items w)) = true ->
  forallb (fun input => singleLine (snd input)) (customInputs w) = true ->
  (type w = radio -> singleSelection (items w) = true) ->
  setValue (asValues (getValue w)) w = w.
Proof.
  intros Hd Hlines Hradio. apply distinct_NoDup in Hd.
  rewrite forallb_forall in Hlines.
  unfold setValue.
  assert (Hinputs : forall selectArray,
             fst (fold_left (setValueStep (asValues (getValue w)))
                    (Object_keys (asValues (getValue w))) (customInputs w, selectArray))
             = customInputs w).
  { intro selectArray. apply setValue_keeps_inputs. intros name text old Hv Hi.
    rewrite obj_get_asValues in Hv.
    destruct (obj_get name (getValue w)) as [v |] eqn:E; [| discriminate].
    injection Hv as ->. apply getValue_get in E. destruct E as [_ E].
    unfold customValue in E. rewrite Hi in E. injection E as ->.
    apply inputText_singleLine.
    exact (Hlines (name, old) (obj_get_In_entry name old _ Hi)). }
  rewrite Hinputs.
  assert (Hitems :
            match type w with
            | radio =>
                selectItemByData
                  (hd_error
                     (snd (fold_left (setValueStep (asValues (getValue w)))
                             (Object_keys (asValues (getValue w))) (customInputs w, []))))
                  (items w)
            | checkbox =>
                selectItemsByData
                  (snd (fold_left (setValueStep (asValues (getValue w)))
                          (Object_keys (asValues (getValue w))) (customInputs w, [])))
                  (items w)
            end = items w).
  { destruct (type w) eqn:Et.
    - rewrite setValue_selectArray. cbn [fst snd app].
      rewrite (filter_ext _ _ (selects_own_value w)), Object_keys_asValues.
      specialize (Hradio eq_refl). unfold singleSelection in Hradio.
      assert (Hv : getValue w
                   = match findSelectedItems w with
                     | name :: _ => [(name, customValue w name)]
                     | [] => []
                     end).
      { unfold getValue, findSelectedItem. rewrite Et.
        now destruct (findSelectedItems w). }
      unfold findSelectedItems in Hv.
      destruct (filter snd (items w)) as [| [n b] rest] eqn:Ef.
      + simpl in Hv. rewrite Hv. simpl. apply map_same. intros [m c] Hin.
        destruct c; [| reflexivity]. exfalso.
        assert (Hm : In (m, true) (filter snd (items w)))
          by (apply filter_In; now split).
        rewrite Ef in Hm. destruct Hm.
      + destruct rest as [| x rest]; [| discriminate]. simpl in Hv. rewrite Hv.
        assert (Hk : Object_keys [(n, customValue w n)] = [n]).
        { apply Permutation_length_1_inv. symmetry.
          apply (Object_keys_Permutation [(n, customValue w n)]). }
        rewrite Hk. simpl. rewrite jsstring_eqb_refl. simpl.
        apply selectFirst_the_selected; [exact Hd |]. now rewrite Ef.
    - unfold selectItemsByData.
      apply map_same. intros [n b] Hin. cbn [fst]. f_equal.
      rewrite setValue_selected_names, selects_own_value.
      unfold getValue. rewrite Et, obj_get_assignments. cbn [obj_get].
      destruct (existsb (jsstring_eqb n) (findSelectedItems w)) eqn:E.
      + apply existsb_jsstring_In, findSelectedItems_In in E.
        exact (selected_value_by_name (items w) n true b Hd E Hin).
      + destruct b; [| reflexivity].
        apply findSelectedItems_In, existsb_jsstring_In in Hin. congruence. }
  rewrite Hitems. now destruct w.
Qed.

End RoundTrip.

Lemma setValue_getValue_witness :
  let w := mkGroup (mkConfig [str "cc0"; str "cc-by-sa"; str "custom-license"] None None)
             radio
             [(str "cc0", false); (str "cc-by-sa", false); (str "custom-license", true)]
             [(str "custom-license", str "my text")] in
  setValue (asValues (getValue w)) w = w.
Proof.
  intro w. apply (setValue_getValue w).
  - reflexivity.
  - reflexivity.
  - intros _. reflexivity.
Defined.
